(** * napari colormap utilities: a shallow embedding

    Embedding of [napari/utils/colormaps/colormap_utils.py]: the
    quasi-random label colouring, the perceptual colour sampler, the label
    colormap builder and the colormap registry behind [ensure_colormap].

    Conventions of the embedding.
    - A Python [float] is a rational ([Q]). In the quasi-random sequences
      ([_low_discrepancy], [low_discrepancy_image]) every operation is the
      exact one followed by [b64], the rounding of binary64 to the nearest
      number, ties to even, subnormal numbers included: what [x % 1] gives
      at the ends of the unit interval depends on it. Overflow, infinities
      and NaN are outside the model. The remaining arithmetic (the
      bounding boxes, [np.linspace], the bounds of [_validate_rgb], the
      index of a colour) is exact.
    - A Python [int] is a [Z]; a numpy array of shape (N, k) is the list of
      its N rows, each a list of k numbers.
    - A raised exception is a value of [exn] carried by [result]; a [while]
      loop takes fuel and answers [None] when the fuel runs out before the
      loop has left.
    - The registry [AVAILABLE_COLORMAPS] is a Python [dict]: an association
      list in insertion order, threaded through [ensure_colormap] as state. *)

From Stdlib Require Import String Ascii DecimalString DecimalNat.
From Stdlib Require Import QArith Qround Qminmax Qpower ZArith Bool Arith Lia Lqa List Sorted.
Import ListNotations.

Local Open Scope Q_scope.

(** ** Exceptions and results *)

(** One constructor per [raise] site of the module (and per failing
    primitive it calls), named after the Python exception class. *)
Inductive exn : Type :=
| TypeError_not_vispy        (* convert_vispy_colormap: not a vispy colormap *)
| KeyError_not_found         (* vispy_or_mpl_colormap: name in neither catalog *)
| TypeError_tuple            (* ensure_colormap: malformed tuple *)
| TypeError_dict             (* ensure_colormap: dict values not all colormaps *)
| ValueError_empty_dict      (* ensure_colormap: empty dict *)
| TypeError_invalid_type     (* ensure_colormap: unsupported argument type *)
| Error_Colormap_kwargs      (* raised inside the Colormap constructor *)
| TypeError_not_callable     (* calling an attribute of cm that is no colormap *)
| ZeroDivisionError          (* int / int with a zero divisor *)
| ValueError_broadcast       (* np.broadcast_to / operands of unequal shape *)
| ValueError_linspace        (* np.linspace with a negative number of samples *)
| ValueError_concatenate     (* np.concatenate with unequal row counts *)
| IndexError                 (* indexing row 0 of an array without rows *)
| KeyError_lookup.           (* dict lookup of a missing key *)

Inductive result (A : Type) : Type :=
| Ret (a : A)
| Raise (e : exn).
Arguments Ret {A} a.
Arguments Raise {A} e.

Definition rbind {A B : Type} (r : result A) (k : A -> result B) : result B :=
  match r with
  | Ret a => k a
  | Raise e => Raise e
  end.

(** Error kinds of the specification's error table. *)
Inductive ErrorKind : Type :=
| NotFound
| InvalidArgument
| TypeMismatch
| GamutExhausted.

(** Modelled from the spec: the error kind under which each exception of
    the registry is surfaced (section 7 and section 4.4 of the
    specification); exceptions the table does not list have no kind. *)
Definition error_kind (e : exn) : option ErrorKind :=
  match e with
  | KeyError_not_found => Some NotFound
  | TypeError_tuple => Some InvalidArgument
  | TypeError_dict => Some InvalidArgument
  | ValueError_empty_dict => Some InvalidArgument
  | TypeError_invalid_type => Some TypeMismatch
  | _ => None
  end.

(** ** Numbers and arrays *)

Definition row : Type := list Q.
Definition array : Type := list row.

Definition Qltb (a b : Q) : bool :=
  match a ?= b with
  | Lt => true
  | _ => false
  end.

(** *** Binary64 arithmetic *)

(** [floor(log2 x)] for [x > 0]. *)
Definition ilog2 (x : Q) : Z :=
  let k := (Z.log2 (Qnum x) - Z.log2 (Z.pos (Qden x)))%Z in
  if Qle_bool (2 ^ k) x then k else (k - 1)%Z.

(** The exponent of the last place of [x > 0]: 53 significant bits, and
    the spacing 2^-1074 of the subnormal numbers as the smallest. *)
Definition cexp (x : Q) : Z := Z.max (ilog2 x - 52) (-1074).

(** The nearest integer, the even one of two that are equally near. *)
Definition rne (y : Q) : Z :=
  let f := Qfloor y in
  match ((y - inject_Z f) ?= (1 # 2))%Q with
  | Lt => f
  | Gt => (f + 1)%Z
  | Eq => if Z.even f then f else (f + 1)%Z
  end.

Definition round_pos (x : Q) : Q :=
  let c := cexp x in inject_Z (rne (x / 2 ^ c)) * 2 ^ c.

(** The binary64 number nearest to [x]: what a float operation stores
    when its exact result is [x]. *)
Definition b64 (x : Q) : Q :=
  match x ?= 0 with
  | Eq => 0
  | Gt => round_pos x
  | Lt => - round_pos (- x)
  end.

(** [x + y], [x - y], [x * y] and [x / y] on floats. *)
Definition fadd (x y : Q) : Q := b64 (x + y).
Definition fsub (x y : Q) : Q := b64 (x - y).
Definition fmul (x y : Q) : Q := b64 (x * y).
Definition fdiv (x y : Q) : Q := b64 (x / y).

(** An [int] converted to a float. *)
Definition float_of_int (i : Z) : Q := b64 (inject_Z i).

(** [np.floor] on a float: the result is a whole number, hence exact. *)
Definition np_floor (x : Q) : Q := inject_Z (Qfloor x).

(** [x % 1] on floats: the result has the sign of the divisor. numpy
    takes [fmod(x, 1)], which is exact, and adds 1 to a negative
    remainder: [x - floor(x)] rounded once. *)
Definition np_mod1 (x : Q) : Q := fsub x (np_floor x).

(** [np.clip(x, 0, 1)]. *)
Definition np_clip01 (x : Q) : Q := Qmin (Qmax x 0) 1.

(** [np.arange(n)]: 0, 1, ..., n-1; empty when [n <= 0]. *)
Definition arange (n : Z) : list Z := map Z.of_nat (seq 0 (Z.to_nat n)).

Fixpoint map2 {A B C : Type} (f : A -> B -> C) (l : list A) (m : list B) : list C :=
  match l, m with
  | a :: l', b :: m' => f a b :: map2 f l' m'
  | _, _ => []
  end.

(** [np.linspace(start, stop, num)] with its default [endpoint=True]. *)
Definition linspace (start stop : Q) (num : Z) : result (list Q) :=
  if (num <? 0)%Z then Raise ValueError_linspace
  else
    let div := (num - 1)%Z in
    let delta := stop - start in
    let y :=
      if (0 <? div)%Z
      then map (fun i => inject_Z i * (delta / inject_Z div) + start) (arange num)
      else map (fun i => inject_Z i * delta + start) (arange num) in
    Ret (if (1 <? num)%Z then removelast y ++ [stop] else y).

(** [np.full((n, 1), v)]. *)
Definition np_full_column (n : Z) (v : Q) : array := repeat [v] (Z.to_nat n).

(** [np.concatenate((a, b), axis=1)]. *)
Definition concatenate_axis1 (a b : array) : result array :=
  if (length a =? length b)%nat then Ret (map2 (@app Q) a b)
  else Raise ValueError_concatenate.

(** [a[0, :] = v]. *)
Definition set_row0 (a : array) (v : Q) : result array :=
  match a with
  | [] => Raise IndexError
  | r :: rest => Ret (map (fun _ => v) r :: rest)
  end.

(** Lexicographic comparison of rows, the order [np.unique(axis=0)] sorts by. *)
Fixpoint row_compare (r s : row) : comparison :=
  match r, s with
  | [], [] => Eq
  | [], _ :: _ => Lt
  | _ :: _, [] => Gt
  | x :: r', y :: s' =>
      match x ?= y with
      | Eq => row_compare r' s'
      | c => c
      end
  end.

Definition row_eqb (r s : row) : bool :=
  match row_compare r s with
  | Eq => true
  | _ => false
  end.

(** The lexicographic order of rows, in which [np.unique(axis=0)] returns
    them. *)
Definition row_lt (r s : row) : Prop := row_compare r s = Lt.

Fixpoint insert_unique (r : row) (l : array) : array :=
  match l with
  | [] => [r]
  | x :: l' =>
      match row_compare r x with
      | Lt => r :: l
      | Eq => l
      | Gt => x :: insert_unique r l'
      end
  end.

(** [np.unique(a, axis=0)]: the distinct rows, sorted. *)
Definition np_unique_rows (a : array) : array := fold_right insert_unique [] a.

(** [int / int], Python 3 true division. *)
Definition py_truediv (a b : Z) : result Q :=
  if (b =? 0)%Z then Raise ZeroDivisionError else Ret (inject_Z a / inject_Z b).

(** [mapM] over [result]: the first exception stops the comprehension. *)
Fixpoint rmap {A B : Type} (f : A -> result B) (l : list A) : result (list B) :=
  match l with
  | [] => Ret []
  | a :: l' => rbind (f a) (fun b => rbind (rmap f l') (fun bs => Ret (b :: bs)))
  end.

(** [enumerate(l)]. *)
Definition enumerate {A : Type} (l : list A) : list (Z * A) :=
  combine (arange (Z.of_nat (length l))) l.

(** ** _all_rgb *)

(** [base] is [np.arange(256, dtype=np.uint8)]; [np.meshgrid] with
    [indexing='ij'], stacked along the last axis and reshaped to rows,
    lists the triples in the order of the indices, the last channel
    varying fastest. *)
Definition _all_rgb : list (Z * Z * Z) :=
  let base := arange 256 in
  flat_map (fun r => flat_map (fun g => map (fun b => (r, g, b)) base) base) base.

(** ** Colour-space bounding boxes *)

Definition LUVMIN : row := [0.0; -83.07790815; -134.09790293].
Definition LUVMAX : row := [100.0; 175.01447356; 107.39905336].
Definition LUVRNG : row := map2 Qminus LUVMAX LUVMIN.

Definition LABMIN : row := [0.0; -86.18302974; -107.85730021].
Definition LABMAX : row := [100.0; 98.23305386; 94.47812228].
Definition LABRNG : row := map2 Qminus LABMAX LABMIN.

(** ** _validate_rgb *)

Definition _validate_rgb (colors : array) (tolerance : Q) : array :=
  let lo := 0 - tolerance in
  let hi := 1 + tolerance in
  let valid := fun r : row => forallb (fun c => Qltb lo c && Qltb c hi) r in
  let filtered_colors := map (map np_clip01) (filter valid colors) in
  filtered_colors.

(** ** low_discrepancy_image *)

Definition low_discrepancy_image (image : list Z) (seed margin : Q) : list Q :=
  let phi_mod := b64 0.6180339887498948482 in
  map (fun label =>
         let image_float := fadd seed (fmul (float_of_int label) phi_mod) in
         fadd margin
              (fmul (fsub 1 (fmul 2 margin))
                    (fsub image_float (np_floor image_float))))
      image.

(** ** _low_discrepancy *)

(** The [seed] argument: a float, or an array of floats. *)
Inductive seed_arg : Type :=
| SeedFloat (s : Q)
| SeedArray (v : list Q).

(** [np.broadcast_to(seed, (1, dim))], as the one row it consists of. *)
Definition broadcast_to (seed : seed_arg) (dim : nat) : result row :=
  match seed with
  | SeedFloat s => Ret (repeat s dim)
  | SeedArray v =>
      if (length v =? dim)%nat then Ret v
      else match v with
           | [s] => Ret (repeat s dim)
           | _ => Raise ValueError_broadcast
           end
  end.

Definition _low_discrepancy (dim : nat) (n : Z) (seed : seed_arg) : result array :=
  let phi1 := b64 1.6180339887498948482 in
  let phi2 := b64 1.32471795724474602596 in
  let phi3 := b64 1.22074408460575947536 in
  rbind (broadcast_to seed dim) (fun seed =>
  let phi := [phi1; phi2; phi3] in
  let g := map (fun p => fdiv 1 p) phi in
  if (3 <? dim)%nat then Raise ValueError_broadcast
  else
    let pts :=
      map (fun i => map2 (fun s gd => np_mod1 (fadd s (fmul (float_of_int i) gd)))
                         seed (firstn dim g))
          (arange n) in
    Ret pts).

(** The seeds the docstrings allow for a three-dimensional sequence: a
    float, or an array of shape (3,). *)
Definition seed_shape_ok (seed : seed_arg) : bool :=
  match seed with
  | SeedFloat _ => true
  | SeedArray v => (length v =? 3)%nat
  end.

(** The seeds [np.broadcast_to] accepts for [dim] dimensions: a float, an
    array of [dim] floats, or an array of one float. *)
Definition seed_fits (dim : nat) (seed : seed_arg) : bool :=
  match seed with
  | SeedFloat _ => true
  | SeedArray v => (length v =? dim)%nat || (length v =? 1)%nat
  end.

(** An array of shape (N, 3) with every entry in the closed unit interval. *)
Definition rgb_triples (a : array) : Prop :=
  Forall (fun r : row => length r = 3%nat /\ Forall (fun c => 0 <= c /\ c <= 1) r) a.

(** The candidate of index [i] drawn for the seed row [s1; s2; s3]. *)
Definition point (s1 s2 s3 : Q) (i : Z) : row :=
  [np_mod1 (fadd s1 (fmul (float_of_int i) (fdiv 1 (b64 1.6180339887498948482))));
   np_mod1 (fadd s2 (fmul (float_of_int i) (fdiv 1 (b64 1.32471795724474602596))));
   np_mod1 (fadd s3 (fmul (float_of_int i) (fdiv 1 (b64 1.22074408460575947536))))].

(** ** The Colormap value type and the foreign (vispy) colormap *)

(** Modelled from the spec: the [Colormap] value type, which this module
    imports from [napari/utils/colormaps/colormap.py]. It exposes the
    fields [name], [colors], [controls] and [interpolation]; its
    constructor stores the fields it is given. *)
Module Colormap.
Record t : Type := new {
  name : string;
  colors : array;
  controls : list Q;
  interpolation : string
}.
End Colormap.
Abbreviation Colormap := Colormap.t.

(** Modelled from the spec: the constructor, with the arguments a call
    may leave out: an empty [controls] stands for evenly spaced controls
    and the interpolation is linear, the values [convert_vispy_colormap]
    falls back to as well. No property below depends on the default name. *)
Definition Colormap_init (colors : array) (name : option string)
    (controls : option (list Q)) (interpolation : option string) : Colormap :=
  Colormap.new
    (match name with Some s => s | None => "custom"%string end)
    colors
    (match controls with Some c => c | None => [] end)
    (match interpolation with Some i => i | None => "linear"%string end).

(** [cmap.name = name]. *)
Definition set_name (cmap : Colormap) (name : string) : Colormap :=
  Colormap.new name (Colormap.colors cmap) (Colormap.controls cmap)
    (Colormap.interpolation cmap).

(** A vispy colormap, by the attributes [convert_vispy_colormap] reads:
    [colors.rgba], and [_controls] and [interpolation] where the object has
    them. *)
Module VispyColormap.
Record t : Type := new {
  colors_rgba : array;
  _controls : option (list Q);
  interpolation : option string
}.
End VispyColormap.
Abbreviation VispyColormap := VispyColormap.t.

(** The Python values [ensure_colormap] tells apart. *)
#[warnings="-register-all"]
Inductive pyobj : Type :=
| PyStr (s : string)
| PyColormap (c : Colormap)
| PyVispy (v : VispyColormap)
| PyTuple (items : list pyobj)
| PyDict (items : list (string * pyobj))
| PyArray (a : array)
| PyOther (type_name : string).

Definition convert_vispy_colormap (colormap : pyobj) (name : option string)
  : result Colormap :=
  match colormap with
  | PyVispy v =>
      let controls :=
        match VispyColormap._controls v with
        | Some c => c
        | None => []
        end in
      let interpolation :=
        match VispyColormap.interpolation v with
        | Some i => i
        | None => "linear"%string
        end in
      Ret (Colormap_init (VispyColormap.colors_rgba v)
             (Some (match name with Some s => s | None => "vispy"%string end))
             (Some controls) (Some interpolation))
  | _ => Raise TypeError_not_vispy
  end.

(** ** color_dict_to_colormap *)

Fixpoint lookup_row {V : Type} (k : row) (d : list (row * V)) : result V :=
  match d with
  | [] => Raise KeyError_lookup
  | (k', v) :: d' => if row_eqb k k' then Ret v else lookup_row k d'
  end.

Definition color_dict_to_colormap (colors : list (Z * row))
  : result (Colormap * list (Z * Q)) :=
  let control_colors := np_unique_rows (map snd colors) in
  let colormap := Colormap_init control_colors None None None in
  rbind (rmap (fun '(i, ctrl) =>
                 rbind (py_truediv i (Z.of_nat (length control_colors) - 1))
                       (fun idx => Ret (ctrl, idx)))
              (enumerate control_colors)) (fun control2index =>
  rbind (rmap (fun '(label, color) =>
                 rbind (lookup_row color control2index)
                       (fun idx => Ret (label, idx)))
              colors) (fun label_color_index =>
  Ret (colormap, label_color_index))).

(** ** increment_unnamed_colormap *)

(** [str(n)] for a non-negative [int]. *)
Definition str_of_nat (n : nat) : string :=
  NilEmpty.string_of_uint (Nat.to_uint n).

Definition increment_unnamed_colormap (existing : list string) (name : string)
  : string :=
  if String.eqb name "[unnamed colormap]" then
    let past_names := filter (String.prefix "[unnamed colormap") existing in
    ("[unnamed colormap " ++ str_of_nat (length past_names) ++ "]")%string
  else name.

(** The name the helper builds from the count [i]. *)
Definition unnamed_name (i : nat) : string :=
  ("[unnamed colormap " ++ str_of_nat i ++ "]")%string.

(** [k] successive calls of [increment_unnamed_colormap] with its default
    [name], every returned name being added to the existing names before
    the next call: the names at each call, paired with the name returned. *)
Fixpoint successive_calls (k : nat) (existing : list string)
  : list (list string * string) :=
  match k with
  | O => []
  | S k' =>
      let name := increment_unnamed_colormap existing "[unnamed colormap]" in
      (existing, name) :: successive_calls k' (existing ++ [name])
  end.

(** Every name of the form the helper builds has an index below the number
    of names that carry the prefix. *)
Definition counted (existing : list string) : Prop :=
  forall i : nat,
    In (unnamed_name i) existing ->
    (i < length (filter (String.prefix "[unnamed colormap") existing))%nat.

(** ** Python dicts with string keys *)

Definition pydict (V : Type) : Type := list (string * V).

Definition keys {V : Type} (d : pydict V) : list string := map fst d.

Fixpoint dict_get {V : Type} (d : pydict V) (k : string) : option V :=
  match d with
  | [] => None
  | (k', v) :: d' => if String.eqb k k' then Some v else dict_get d' k
  end.

Definition dict_mem {V : Type} (k : string) (d : pydict V) : bool :=
  match dict_get d k with
  | Some _ => true
  | None => false
  end.

(** [d[k] = v]: an existing key keeps its place, a new key goes last. *)
Fixpoint dict_set {V : Type} (d : pydict V) (k : string) (v : V) : pydict V :=
  match d with
  | [] => [(k, v)]
  | (k', v') :: d' =>
      if String.eqb k k' then (k', v) :: d' else (k', v') :: dict_set d' k v
  end.

(** [d.update(other)]. *)
Definition dict_update {V : Type} (d other : pydict V) : pydict V :=
  fold_left (fun acc kv => dict_set acc (fst kv) (snd kv)) other d.

(** [dict(items)] and dict comprehensions: later items overwrite. *)
Definition dict_of_items {V : Type} (items : list (string * V)) : pydict V :=
  dict_update [] items.

Fixpoint insert_sorted {V : Type} (kv : string * V) (l : list (string * V))
  : list (string * V) :=
  match l with
  | [] => [kv]
  | kv' :: l' =>
      if String.leb (fst kv) (fst kv') then kv :: l
      else kv' :: insert_sorted kv l'
  end.

(** [sorted(d.items())] for a dict with string keys: the keys are distinct,
    so the order of the pairs is the order of their keys. *)
Definition sorted_items {V : Type} (d : pydict V) : list (string * V) :=
  fold_right insert_sorted [] d.

(** The order of [str]: by code point, the shorter of two strings first
    when one is a prefix of the other. *)
Definition string_le (a b : string) : Prop := String.leb a b = true.

(** The names are in order. *)
Fixpoint is_sorted (l : list string) : bool :=
  match l with
  | a :: (b :: _) as rest => String.leb a b && is_sorted rest
  | _ => true
  end.

(** ** The registry monad: state and exceptions *)

Definition registry : Type := pydict Colormap.

(** A computation under the lock: it reads and writes the registry and
    either returns or raises; the registry it leaves is the one at the
    return or at the raise. *)
Definition M (A : Type) : Type := registry -> registry * result A.

Definition ret {A : Type} (a : A) : M A := fun s => (s, Ret a).

Definition raise {A : Type} (e : exn) : M A := fun s => (s, Raise e).

Definition bind {A B : Type} (m : M A) (k : A -> M B) : M B :=
  fun s =>
    match m s with
    | (s', Ret a) => k a s'
    | (s', Raise e) => (s', Raise e)
    end.

Definition lift {A : Type} (r : result A) : M A := fun s => (s, r).

Definition get_registry : M registry := fun s => (s, Ret s).

(** [AVAILABLE_COLORMAPS[name] = cmap]. *)
Definition setitem (name : string) (cmap : Colormap) : M unit :=
  fun s => (dict_set s name cmap, Ret tt).

(** [AVAILABLE_COLORMAPS.update(other)]. *)
Definition update (other : pydict Colormap) : M unit :=
  fun s => (dict_update s other, Ret tt).

(** [AVAILABLE_COLORMAPS[name]]. *)
Definition getitem (name : string) : M Colormap :=
  fun s =>
    match dict_get s name with
    | Some c => (s, Ret c)
    | None => (s, Raise KeyError_lookup)
    end.

(** [warnings.warn(message)]: no effect on the registry. *)
Definition warn (message : string) : M unit := ret tt.

Declare Scope registry_scope.
Delimit Scope registry_scope with registry.
Notation "x <- m ;; k" := (bind m (fun x => k))
  (at level 61, m at next level, right associativity) : registry_scope.
Notation "m ;; k" := (bind m (fun _ => k))
  (at level 61, right associativity) : registry_scope.

(** ** _color_random and label_colormap *)

Section Sampler.

(** The colour conversions [colorconv.lab2rgb] and [colorconv.luv2rgb]
    belong to the vendored module [colorconv]: they are parameters here,
    each converting one colour (one row of the array). *)
Variable lab2rgb : Q * Q * Q -> Q * Q * Q.
Variable luv2rgb : Q * Q * Q -> Q * Q * Q.

(** A conversion applied to every row of an (N, 3) array. *)
Definition colorconv_rows (f : Q * Q * Q -> Q * Q * Q) (a : array) : array :=
  map (fun r : row =>
         match r with
         | [x; y; z] => let '(r', g', b') := f (x, y, z) in [r'; g'; b']
         | _ => r
         end) a.

(** [random * RNG + MIN], the bounding box applied to every row. *)
Definition scale_rows (random : array) (rng mn : row) : array :=
  map (fun r => map2 Qplus (map2 Qmult r rng) mn) random.

(** One pass of the [while] loop of [_color_random]: the colours that
    [_validate_rgb] keeps out of [n * factor] candidates. *)
Definition color_pass (n : Z) (colorspace : string) (tolerance : Q)
    (seed : seed_arg) (factor : Z) : result array :=
  rbind (_low_discrepancy 3 (n * factor) seed) (fun random =>
  let raw_rgb :=
    if String.eqb colorspace "luv" then
      colorconv_rows luv2rgb (scale_rows random LUVRNG LUVMIN)
    else if String.eqb colorspace "rgb" then
      random
    else
      colorconv_rows lab2rgb (scale_rows random LABRNG LABMIN) in
  Ret (_validate_rgb raw_rgb tolerance)).

(** The pass of [_color_random] numbered [k] (factor [6 * 2^k]) keeps at
    least [n] colours. *)
Definition pass_accepts (n : Z) (colorspace : string) (tolerance : Q)
    (seed : seed_arg) (k : nat) : Prop :=
  exists rgb,
    color_pass n colorspace tolerance seed (6 * 2 ^ Z.of_nat k)
    = Ret rgb /\
    (n <= Z.of_nat (length rgb))%Z.


Fixpoint _color_random_loop (fuel : nat) (n : Z) (colorspace : string)
    (tolerance : Q) (seed : seed_arg) (factor : Z) (rgb : array)
  : option (result array) :=
  let expand_factor := 2%Z in
  if (Z.of_nat (length rgb) <? n)%Z then
    match fuel with
    | O => None
    | S fuel' =>
        match color_pass n colorspace tolerance seed factor with
        | Raise e => Some (Raise e)
        | Ret rgb' =>
            _color_random_loop fuel' n colorspace tolerance seed
              (factor * expand_factor)%Z rgb'
        end
    end
  else Some (Ret (firstn (Z.to_nat n) rgb)).

Definition _color_random (fuel : nat) (n : Z) (colorspace : string)
    (tolerance : Q) (seed : seed_arg) : option (result array) :=
  let factor := 6%Z in
  let rgb : array := [] in
  _color_random_loop fuel n colorspace tolerance seed factor rgb.

Definition label_colormap (fuel : nat) (num_colors : Z) (seed : seed_arg)
  : option (result Colormap) :=
  match linspace 0.00001 (1 - 0.00001) (num_colors - 1) with
  | Raise e => Some (Raise e)
  | Ret midpoints =>
      let control_points := [0] ++ midpoints ++ [1.0] in
      match _color_random fuel num_colors "lab" 0.0 seed with
      | None => None
      | Some (Raise e) => Some (Raise e)
      | Some (Ret rgb) =>
          Some (rbind (concatenate_axis1 rgb (np_full_column num_colors 1))
                  (fun colors =>
                rbind (set_row0 colors 0) (fun colors =>
                Ret (Colormap_init colors (Some "label_colormap"%string)
                       (Some control_points) (Some "zero"%string)))))
      end
  end.

End Sampler.


(** ** The registry *)

Definition primary_color_names : list string :=
  ["red"; "green"; "blue"; "cyan"; "magenta"; "yellow"]%string.

Definition primary_colors : array :=
  [[1; 0; 0]; [0; 1; 0]; [0; 0; 1]; [0; 1; 1]; [1; 0; 1]; [1; 1; 0]].

Definition SIMPLE_COLORMAPS : pydict Colormap :=
  dict_of_items
    (map (fun '(name, color) =>
            (name, Colormap_init [[0.0; 0.0; 0.0]; color] (Some name) None None))
         (combine primary_color_names primary_colors)).

Definition isinstance_VispyColormap (o : pyobj) : bool :=
  match o with
  | PyVispy _ => true
  | _ => false
  end.

Definition isinstance_Colormap (o : pyobj) : bool :=
  match o with
  | PyColormap _ => true
  | _ => false
  end.

(** [not name], for a name that is [None] or a string. *)
Definition py_not (name : option string) : bool :=
  match name with
  | None => true
  | Some s => String.eqb s ""
  end.

Section Registry.

(** What this module imports from other modules and libraries:
    - [get_colormaps]: the catalog of vispy, [get_colormap(name)] being the
      entry under [name];
    - [cm]: the vendored matplotlib module, [cm name] standing for
      [getattr(cm, name)] ([None] for the [AttributeError]) as what
      calling the attribute on the sample positions does: a colormap
      returns its colours, an attribute that is no colormap raises;
    - [matplotlib_colormaps]: the lines of [matplotlib_cmaps.txt];
    - [bopd]: the table of [bop_colors];
    - [Colormap_kwargs]: the constructor called on the items of a dict;
    - [colormap_eq]: [colormap == val] for a vispy colormap and a value of
      the registry. *)
Variable get_colormaps : pydict VispyColormap.
Variable cm : string -> option (list Q -> result array).
Variable matplotlib_colormaps : list string.
Variable bopd : pydict array.
Variable Colormap_kwargs : pydict pyobj -> result Colormap.
Variable colormap_eq : VispyColormap -> Colormap -> bool.

Definition BOP_COLORMAPS : pydict Colormap :=
  dict_of_items (map (fun '(k, v) => (k, Colormap_init v (Some k) None None)) bopd).

Definition vispy_or_mpl_colormap (name : string) : result Colormap :=
  let vispy_cmaps := get_colormaps in
  match dict_get vispy_cmaps name with
  | Some cmap => convert_vispy_colormap (PyVispy cmap) (Some name)
  | None =>
      match cm name with
      | None => Raise KeyError_not_found
      | Some mpl_cmap =>
          rbind (linspace 0 1 256) (fun positions =>
          rbind (mpl_cmap positions) (fun mpl_colors =>
          Ret (Colormap_init mpl_colors (Some name) None None)))
      end
  end.

Definition ALL_COLORMAPS : result (pydict Colormap) :=
  rbind (rmap (fun k => rbind (vispy_or_mpl_colormap k) (fun c => Ret (k, c)))
              matplotlib_colormaps) (fun items =>
  Ret (dict_update (dict_update (dict_of_items items) SIMPLE_COLORMAPS)
         BOP_COLORMAPS)).

Definition AVAILABLE_COLORMAPS : result registry :=
  rbind ALL_COLORMAPS (fun all => Ret (dict_of_items (sorted_items all))).

(** The loop of the vispy branch: the key of the first value equal to
    [colormap], in the order of the dict. *)
Fixpoint first_equal (colormap : VispyColormap) (items : registry)
  : option string :=
  match items with
  | [] => None
  | (key, val) :: rest =>
      if colormap_eq colormap val then Some key else first_equal colormap rest
  end.

Local Open Scope registry_scope.

(** The body runs under [AVAILABLE_COLORMAPS_LOCK]: a call is one step on
    the registry. Colormaps are values here: [cmap.name = name] yields a
    renamed copy, and the sharing of the object with the caller is not
    modelled. [warnings.warn] is taken to return. *)
Definition ensure_colormap (colormap : pyobj) : M Colormap :=
  name <-
    match colormap with
    | PyStr name =>
        available <- get_registry ;;
        if negb (dict_mem name available) then
          cmap <- lift (vispy_or_mpl_colormap name) ;;
          setitem name cmap ;;
          ret name
        else ret name
    | PyColormap c =>
        setitem (Colormap.name c) c ;;
        ret (Colormap.name c)
    | PyVispy v =>
        available <- get_registry ;;
        let name := first_equal v available in
        let name :=
          if py_not name
          then increment_unnamed_colormap (keys available) "[unnamed colormap]"
          else match name with Some key => key | None => ""%string end in
        cmap <- lift (convert_vispy_colormap colormap (Some name)) ;;
        setitem name cmap ;;
        ret name
    | PyTuple items =>
        match items with
        | [PyStr name; PyVispy v] =>
            cmap <- lift (convert_vispy_colormap (PyVispy v) (Some name)) ;;
            setitem name cmap ;;
            ret name
        | [PyStr name; PyColormap cmap] =>
            setitem name (set_name cmap name) ;;
            ret name
        | _ => raise TypeError_tuple
        end
    | PyDict items =>
        let colors_not_a_colormap :=
          match dict_get items "colors" with
          | Some v => negb (isinstance_VispyColormap v || isinstance_Colormap v)
          | None => false
          end in
        if colors_not_a_colormap then
          cmap <- lift (Colormap_kwargs items) ;;
          let name := Colormap.name cmap in
          setitem name cmap ;;
          ret name
        else if negb (forallb (fun i => isinstance_VispyColormap i
                                        || isinstance_Colormap i)
                              (map snd items)) then
          raise TypeError_dict
        else
          converted <-
            lift (rmap (fun '(key, cmap) =>
                          if isinstance_VispyColormap cmap then
                            rbind (convert_vispy_colormap cmap (Some key))
                                  (fun c => Ret (key, c))
                          else
                            match cmap with
                            | PyColormap c => Ret (key, set_name c key)
                            | _ => Raise TypeError_dict (* excluded by the test above *)
                            end) items) ;;
          update converted ;;
          match converted with
          | [(name, _)] => ret name
          | (name, _) :: _ :: _ =>
              warn "only the first item in a colormap dict is used as an argument" ;;
              ret name
          | [] => raise ValueError_empty_dict
          end
    | _ => raise TypeError_invalid_type
    end ;;
  getitem name.

End Registry.

(** ** Stand-ins for the concrete runs *)

(** A stand-in for the vendored conversions: an affine map of the
    bounding box into the unit cube. *)
Definition sample_lab2rgb (c : Q * Q * Q) : Q * Q * Q :=
  let '(l, a, b) := c in (l / 100, (a + 128) / 256, (b + 128) / 256).

Definition sample_luv2rgb (c : Q * Q * Q) : Q * Q * Q :=
  let '(l, u, v) := c in (l / 100, (u + 100) / 300, (v + 150) / 300).


(** A small vispy catalog, matplotlib module, name list and bop table. *)
Definition sample_get_colormaps : pydict VispyColormap :=
  [("grays"%string,
    VispyColormap.new [[0; 0; 0; 1]; [1; 1; 1; 1]] (Some [0; 1]) (Some "linear"%string))].

Definition sample_cm (name : string) : option (list Q -> result array) :=
  if String.eqb name "viridis"
  then Some (fun positions => Ret (map (fun p => [p; 1 - p; 0.5; 1]) positions))
  else if String.eqb name "__doc__"
  then Some (fun _ => Raise TypeError_not_callable)
  else None.

Definition sample_matplotlib_colormaps : list string :=
  ["viridis"; "grays"]%string.

Definition sample_bopd : pydict array :=
  [("bop blue"%string, [[0; 0; 0]; [0.1; 0.5; 1]])].

(** The constructor on the items of a dict: here it accepts nothing. *)
Definition sample_Colormap_kwargs (items : pydict pyobj) : result Colormap :=
  Raise Error_Colormap_kwargs.

Definition array_eqb (a b : array) : bool :=
  (length a =? length b)%nat && forallb (fun rs => row_eqb (fst rs) (snd rs)) (combine a b).

(** Modelled from the spec: [==] between a foreign colormap and a value of
    the registry as structural equality: the value holds the colors, the
    controls and the interpolation that the conversion of the foreign
    colormap stores, whatever its name. *)
Definition structural_eq (v : VispyColormap) (c : Colormap) : bool :=
  match convert_vispy_colormap (PyVispy v) None with
  | Ret c' =>
      array_eqb (Colormap.colors c') (Colormap.colors c)
      && row_eqb (Colormap.controls c') (Colormap.controls c)
      && String.eqb (Colormap.interpolation c') (Colormap.interpolation c)
  | Raise _ => false
  end.

(** A foreign colormap of three colours. *)
Definition sample_vispy : VispyColormap :=
  VispyColormap.new [[0; 0; 0; 1]; [0; 1; 0; 1]; [0; 0; 1; 1]] None None.

(** Calls of [ensure_colormap] one after the other on the same registry:
    the registry left by the last call and the result of every call. *)
Fixpoint run_calls (ensure : pyobj -> M Colormap) (calls : list pyobj)
    (available : registry) : registry * list (result Colormap) :=
  match calls with
  | [] => (available, [])
  | colormap :: rest =>
      let '(available', r) := ensure colormap available in
      let '(final, rs) := run_calls ensure rest available' in
      (final, r :: rs)
  end.

(** The name of the colormap a call returned. *)
Definition returned_name (r : result Colormap) : option string :=
  match r with
  | Ret c => Some (Colormap.name c)
  | Raise _ => None
  end.

Definition sample_ensure : pyobj -> M Colormap :=
  ensure_colormap sample_get_colormaps sample_cm sample_Colormap_kwargs
    structural_eq.

(** The registry the module starts with over the sample catalog. *)
Definition sample_registry : registry :=
  match AVAILABLE_COLORMAPS sample_get_colormaps sample_cm
          sample_matplotlib_colormaps sample_bopd with
  | Ret available => available
  | Raise _ => []
  end.

(** A mapping of labels to colours, for the concrete runs. *)
Definition sample_colors : list (Z * row) :=
  [(1%Z, [1; 0; 0; 1]); (2%Z, [0; 1; 0; 1]); (3%Z, [1; 0; 0; 1]);
   (4%Z, [0; 0; 1; 1])].

(** A dict of two colormaps, for the concrete runs. *)
Definition sample_dict : pydict pyobj :=
  [("stripes"%string, PyVispy sample_vispy);
   ("dusk"%string,
    PyColormap (Colormap.new "night" [[0; 0; 0; 1]; [0; 0; 0.5; 1]] [0; 1] "linear"))].

(** * Properties *)

(** ** Binary64 rounding *)

Lemma pow2_pos (c : Z) : 0 < 2 ^ c.
Proof. apply Qpower_0_lt. reflexivity. Qed.

Lemma pow2_Z (c : Z) : (0 <= c)%Z -> 2 ^ c == inject_Z (2 ^ c).
Proof. intros H. now rewrite Zpower_Qpower. Qed.

Lemma pow2_le (a b : Z) : (a <= b)%Z -> 2 ^ a <= 2 ^ b.
Proof. intros H. apply Qpower_le_compat_l; [exact H | discriminate]. Qed.

Lemma pow2_lt_inv (a b : Z) : 2 ^ a < 2 ^ b -> (a < b)%Z.
Proof. intros H. apply (Qpower_lt_compat_l_inv 2); [exact H | reflexivity]. Qed.

Lemma pow2_split (a b : Z) : 2 ^ (a + b) == 2 ^ a * 2 ^ b.
Proof. apply Qpower_plus. discriminate. Qed.

Lemma ilog2_spec (x : Q) :
  0 < x -> 2 ^ ilog2 x <= x /\ x < 2 ^ (ilog2 x + 1).
Proof.
  intros Hx. unfold ilog2.
  destruct x as [n d]. cbn [Qnum Qden].
  assert (Hn : (0 < n)%Z) by (unfold Qlt in Hx; simpl in Hx; lia).
  pose proof (Z.log2_spec n Hn) as [Hn1 Hn2].
  pose proof (Z.log2_spec (Z.pos d) (Pos2Z.is_pos d)) as [Hd1 Hd2].
  pose proof (Z.log2_nonneg n) as Hln. pose proof (Z.log2_nonneg (Z.pos d)) as Hld.
  set (ln := Z.log2 n) in *. set (ld := Z.log2 (Z.pos d)) in *.
  assert (EA : 2 ^ ln == inject_Z (2 ^ ln)) by now apply pow2_Z.
  assert (EB : 2 ^ ld == inject_Z (2 ^ ld)) by now apply pow2_Z.
  pose proof (pow2_pos ln) as HA. pose proof (pow2_pos ld) as HB.
  assert (Hk : 2 ^ (ln - ld) == 2 ^ ln / 2 ^ ld) by (apply Qpower_minus; discriminate).
  assert (Hx' : n # d == inject_Z n / inject_Z (Z.pos d)) by apply Qmake_Qdiv.
  assert (HN1 : 2 ^ ln <= inject_Z n) by (rewrite EA, <- Zle_Qle; exact Hn1).
  assert (HN2 : inject_Z n < 2 * 2 ^ ln).
  { rewrite EA. change 2 with (inject_Z 2) at 1. rewrite <- inject_Z_mult, <- Zlt_Qlt.
    rewrite Z.pow_succ_r in Hn2 by exact Hln. exact Hn2. }
  assert (HD1 : 2 ^ ld <= inject_Z (Z.pos d)) by (rewrite EB, <- Zle_Qle; exact Hd1).
  assert (HD2 : inject_Z (Z.pos d) < 2 * 2 ^ ld).
  { rewrite EB. change 2 with (inject_Z 2) at 1. rewrite <- inject_Z_mult, <- Zlt_Qlt.
    rewrite Z.pow_succ_r in Hd2 by exact Hld. exact Hd2. }
  set (N := inject_Z n) in *. set (D := inject_Z (Z.pos d)) in *.
  set (A := 2 ^ ln) in *. set (B := 2 ^ ld) in *.
  assert (HD : 0 < D) by lra.
  assert (Hup : n # d < 2 ^ (ln - ld + 1)).
  { rewrite pow2_split, Hk, Hx'. change (2 ^ 1) with 2.
    apply Qlt_shift_div_r; [exact HD |].
    setoid_replace (A / B * 2 * D) with (2 * A * (D / B)) by (field; lra).
    assert (1 <= D / B) by (apply Qle_shift_div_l; lra).
    nra. }
  assert (Hlo : 2 ^ (ln - ld - 1) < n # d).
  { replace (ln - ld - 1)%Z with (ln - ld + -1)%Z by lia.
    rewrite pow2_split, Hk, Hx'. change (2 ^ (-1)) with (1 # 2).
    apply Qlt_shift_div_l; [exact HD |].
    setoid_replace (A / B * (1 # 2) * D) with (A * (D / (2 * B))) by (field; lra).
    assert (D / (2 * B) < 1) by (apply Qlt_shift_div_r; lra).
    nra. }
  destruct (Qle_bool (2 ^ (ln - ld)) (n # d)) eqn:E.
  - apply Qle_bool_iff in E. split; [exact E | exact Hup].
  - assert (Hlt : n # d < 2 ^ (ln - ld)).
    { apply Qnot_le_lt. intros H. apply Qle_bool_iff in H. congruence. }
    replace (ln - ld - 1 + 1)%Z with (ln - ld)%Z by lia.
    split; [apply Qlt_le_weak; exact Hlo | exact Hlt].
Qed.

Lemma ilog2_unique (x : Q) (e : Z) :
  2 ^ e <= x -> x < 2 ^ (e + 1) -> ilog2 x = e.
Proof.
  intros H1 H2.
  assert (Hx : 0 < x) by (pose proof (pow2_pos e); lra).
  destruct (ilog2_spec x Hx) as [H3 H4].
  assert (e < ilog2 x + 1)%Z by (apply pow2_lt_inv; lra).
  assert (ilog2 x < e + 1)%Z by (apply pow2_lt_inv; lra).
  lia.
Qed.

Lemma ilog2_mono (x y : Q) : 0 < x -> x <= y -> (ilog2 x <= ilog2 y)%Z.
Proof.
  intros Hx Hxy.
  destruct (ilog2_spec x Hx) as [H1 _].
  destruct (ilog2_spec y) as [_ H2]; [lra |].
  assert (ilog2 x < ilog2 y + 1)%Z by (apply pow2_lt_inv; lra).
  lia.
Qed.

Lemma rne_bounds (y : Q) : (Qfloor y <= rne y <= Qfloor y + 1)%Z.
Proof.
  unfold rne. destruct (_ ?= _); [destruct (Z.even _) |..]; lia.
Qed.

Lemma rne_Z (k : Z) : rne (inject_Z k) = k.
Proof.
  unfold rne. rewrite Qfloor_Z.
  assert (E : (inject_Z k - inject_Z k ?= 1 # 2) = Lt).
  { rewrite <- Qlt_alt. lra. }
  now rewrite E.
Qed.

Lemma rne_mono (y y' : Q) : y <= y' -> (rne y <= rne y')%Z.
Proof.
  intros H. pose proof (Qfloor_resp_le _ _ H) as Hf.
  pose proof (rne_bounds y) as B. pose proof (rne_bounds y') as B'.
  destruct (Z.eq_dec (Qfloor y) (Qfloor y')) as [E | E]; [| lia].
  unfold rne in *. rewrite <- E in *.
  destruct (Qcompare_spec (y - inject_Z (Qfloor y)) (1 # 2));
    destruct (Qcompare_spec (y' - inject_Z (Qfloor y)) (1 # 2));
    try lia; try lra; destruct (Z.even (Qfloor y)); lia.
Qed.

Lemma rne_comp (y y' : Q) : y == y' -> rne y = rne y'.
Proof.
  intros H. apply Z.le_antisymm; apply rne_mono; rewrite H; apply Qle_refl.
Qed.

Lemma round_pos_nonneg (x : Q) : 0 < x -> 0 <= round_pos x.
Proof.
  intros Hx. unfold round_pos. pose proof (pow2_pos (cexp x)) as Hc.
  assert (H : (0 <= rne (x / 2 ^ cexp x))%Z).
  { rewrite <- (rne_Z 0). apply rne_mono. change (inject_Z 0) with 0.
    apply Qle_shift_div_l; lra. }
  rewrite Zle_Qle in H. change (inject_Z 0) with 0 in H. nra.
Qed.

Lemma round_pos_mono (x y : Q) : 0 < x -> x <= y -> round_pos x <= round_pos y.
Proof.
  intros Hx Hxy. assert (Hy : 0 < y) by lra.
  pose proof (ilog2_mono x y Hx Hxy) as He.
  destruct (ilog2_spec x Hx) as [Hx1 Hx2].
  destruct (ilog2_spec y Hy) as [Hy1 Hy2].
  unfold round_pos, cexp.
  set (e := ilog2 x) in *. set (e' := ilog2 y) in *.
  set (c := Z.max (e - 52) (-1074)). set (c' := Z.max (e' - 52) (-1074)).
  pose proof (pow2_pos c) as Hc. pose proof (pow2_pos c') as Hc'.
  destruct (Z.eq_dec c c') as [E | E].
  - rewrite <- E.
    assert (H : (rne (x / 2 ^ c) <= rne (y / 2 ^ c))%Z).
    { apply rne_mono. apply Qmult_le_compat_r; [exact Hxy |].
      apply Qlt_le_weak, Qinv_lt_0_compat, Hc. }
    rewrite Zle_Qle in H. nra.
  - assert (Hcc : (c < c')%Z) by lia.
    assert (Ec' : c' = (e' - 52)%Z) by lia.
    assert (Hee : (e + 1 <= e')%Z) by lia.
    apply Qle_trans with (2 ^ e').
    + assert (Hd : (0 <= e' - c)%Z) by lia.
      assert (H : (rne (x / 2 ^ c) <= 2 ^ (e' - c))%Z).
      { rewrite <- (rne_Z (2 ^ (e' - c))). apply rne_mono.
        rewrite <- pow2_Z by exact Hd.
        apply Qle_shift_div_r; [exact Hc |].
        rewrite <- pow2_split. replace (e' - c + c)%Z with e' by lia.
        pose proof (pow2_le (e + 1) e' Hee). lra. }
      rewrite Zle_Qle, <- pow2_Z in H by exact Hd.
      assert (E2 : 2 ^ e' == 2 ^ (e' - c) * 2 ^ c).
      { rewrite <- pow2_split. now replace (e' - c + c)%Z with e' by lia. }
      rewrite E2. nra.
    + assert (H : (2 ^ 52 <= rne (y / 2 ^ c'))%Z).
      { rewrite <- (rne_Z (2 ^ 52)) at 1. apply rne_mono.
        rewrite <- pow2_Z by lia.
        apply Qle_shift_div_l; [exact Hc' |].
        rewrite <- pow2_split. replace (52 + c')%Z with e' by lia. exact Hy1. }
      rewrite Zle_Qle, <- pow2_Z in H by lia.
      assert (E2 : 2 ^ e' == 2 ^ 52 * 2 ^ c').
      { rewrite <- pow2_split. now replace (52 + c')%Z with e' by lia. }
      rewrite E2. nra.
Qed.

(** Rounding keeps the order. *)
Lemma b64_mono (x y : Q) : x <= y -> b64 x <= b64 y.
Proof.
  intros H. unfold b64.
  destruct (Qcompare_spec x 0) as [Ex | Ex | Ex];
    destruct (Qcompare_spec y 0) as [Ey | Ey | Ey]; try lra.
  - apply round_pos_nonneg, Ey.
  - assert (0 <= round_pos (- x)) by (apply round_pos_nonneg; lra). lra.
  - assert (round_pos (- y) <= round_pos (- x)) by (apply round_pos_mono; lra). lra.
  - assert (0 <= round_pos (- x)) by (apply round_pos_nonneg; lra).
    assert (0 <= round_pos y) by (apply round_pos_nonneg; lra). lra.
  - apply round_pos_mono; lra.
Qed.

Lemma b64_comp (x y : Q) : x == y -> b64 x == b64 y.
Proof.
  intros H. apply Qle_antisym; apply b64_mono; rewrite H; apply Qle_refl.
Qed.

#[global] Instance b64_Proper : Proper (Qeq ==> Qeq) b64.
Proof. intros x y H. now apply b64_comp. Qed.

Lemma b64_0 : b64 0 == 0.
Proof. reflexivity. Qed.

Lemma b64_1 : b64 1 == 1.
Proof. vm_compute. reflexivity. Qed.

Lemma b64_unit (x : Q) : 0 <= x -> x <= 1 -> 0 <= b64 x /\ b64 x <= 1.
Proof.
  intros H0 H1. split.
  - rewrite <- b64_0. now apply b64_mono.
  - rewrite <- b64_1. now apply b64_mono.
Qed.

Lemma b64_nonneg (x : Q) : 0 <= x -> 0 <= b64 x.
Proof. intros H. rewrite <- b64_0. now apply b64_mono. Qed.


Lemma round_pos_comp (x y : Q) : 0 < x -> x == y -> round_pos x == round_pos y.
Proof.
  intros Hx H. apply Qle_antisym; apply round_pos_mono; lra.
Qed.

(** A number with a significand below 2^53 and an exponent the format
    has is a binary64 number: rounding leaves it as it is. *)
Lemma round_pos_representable (m c : Z) :
  (0 < m < 2 ^ 53)%Z -> (-1074 <= c)%Z ->
  round_pos (inject_Z m * 2 ^ c) == inject_Z m * 2 ^ c.
Proof.
  intros Hm Hc. set (v := inject_Z m * 2 ^ c).
  pose proof (pow2_pos c) as Hpc.
  assert (Hm1 : 1 <= inject_Z m) by (change 1 with (inject_Z 1); rewrite <- Zle_Qle; lia).
  assert (Hm2 : inject_Z m < 2 ^ 53).
  { rewrite pow2_Z by lia. rewrite <- Zlt_Qlt. lia. }
  assert (Hv : 0 < v) by (unfold v; nra).
  assert (Hup : v < 2 ^ (53 + c)) by (rewrite pow2_split; unfold v; nra).
  destruct (ilog2_spec v Hv) as [H1 _].
  assert (He : (ilog2 v < 53 + c)%Z) by (apply pow2_lt_inv; lra).
  unfold round_pos. fold v.
  set (cv := cexp v).
  assert (Hcv : (cv <= c)%Z) by (unfold cv, cexp; lia).
  assert (E : v / 2 ^ cv == inject_Z (m * 2 ^ (c - cv))).
  { rewrite inject_Z_mult, <- pow2_Z by lia. unfold v.
    rewrite (Qpower_minus 2 c cv) by discriminate.
    field. apply Qpower_not_0. discriminate. }
  rewrite (rne_comp _ _ E), rne_Z, inject_Z_mult, <- pow2_Z by lia.
  unfold v. rewrite (Qpower_minus 2 c cv) by discriminate.
  field. apply Qpower_not_0. discriminate.
Qed.

Lemma round_pos_fixed (x : Q) :
  0 < x -> round_pos x == 0 \/ (0 < round_pos x /\ round_pos (round_pos x) == round_pos x).
Proof.
  intros Hx. destruct (ilog2_spec x Hx) as [_ H2].
  set (c := cexp x). set (m := rne (x / 2 ^ c)).
  assert (Ev : round_pos x == inject_Z m * 2 ^ c) by reflexivity.
  set (v := round_pos x) in *. clearbody v.
  pose proof (pow2_pos c) as Hpc.
  assert (Hc : (-1074 <= c)%Z) by (unfold c, cexp; lia).
  assert (Hm : (m <= 2 ^ 53)%Z).
  { unfold m. rewrite <- (rne_Z (2 ^ 53)). apply rne_mono.
    rewrite <- pow2_Z by lia. apply Qle_shift_div_r; [exact Hpc |].
    rewrite <- pow2_split.
    assert (Hle : (ilog2 x + 1 <= 53 + c)%Z) by (unfold c, cexp; lia).
    pose proof (pow2_le _ _ Hle). lra. }
  assert (Hm0 : (0 <= m)%Z).
  { unfold m. rewrite <- (rne_Z 0). apply rne_mono. change (inject_Z 0) with 0.
    apply Qle_shift_div_l; lra. }
  destruct (Z.eq_dec m 0) as [E0 | E0].
  - left. rewrite Ev, E0. change (inject_Z 0) with 0. ring.
  - right.
    assert (Hm1 : 1 <= inject_Z m) by (change 1 with (inject_Z 1); rewrite <- Zle_Qle; lia).
    assert (Hv : 0 < v) by (rewrite Ev; nra).
    split; [exact Hv |].
    destruct (Z.eq_dec m (2 ^ 53)) as [E | E].
    + assert (Ev' : v == inject_Z (2 ^ 52) * 2 ^ (c + 1)).
      { rewrite Ev, E, pow2_split. change (2 ^ 1) with 2.
        change (inject_Z (2 ^ 53)) with (2 * inject_Z (2 ^ 52)). ring. }
      rewrite (round_pos_comp _ _ Hv Ev').
      rewrite round_pos_representable by lia. now symmetry.
    + rewrite (round_pos_comp _ _ Hv Ev).
      rewrite round_pos_representable by lia. now symmetry.
Qed.

(** Rounding twice is rounding once. *)
Lemma b64_idem (x : Q) : b64 (b64 x) == b64 x.
Proof.
  assert (Hpos : forall v, 0 < v -> b64 v == round_pos v).
  { intros v Hv. unfold b64. destruct (Qcompare_spec v 0); try lra. }
  assert (Hneg : forall v, v < 0 -> b64 v == - round_pos (- v)).
  { intros v Hv. unfold b64. destruct (Qcompare_spec v 0); try lra. }
  destruct (Qcompare_spec x 0) as [Ex | Ex | Ex].
  - rewrite Ex. reflexivity.
  - rewrite (Hneg x Ex).
    destruct (round_pos_fixed (- x)) as [E | [Hp E]]; [lra | |].
    + rewrite E. reflexivity.
    + rewrite Hneg by lra.
      rewrite (round_pos_comp (- - round_pos (- x)) (round_pos (- x))); lra.
  - rewrite (Hpos x Ex).
    destruct (round_pos_fixed x Ex) as [E | [Hp E]].
    + rewrite E. reflexivity.
    + now rewrite Hpos.
Qed.

(** Whole numbers up to 2^53 are binary64 numbers. *)
Lemma b64_integer (i : Z) : (Z.abs i <= 2 ^ 53)%Z -> b64 (inject_Z i) == inject_Z i.
Proof.
  intros Hi. unfold b64.
  assert (Hrep : forall m : Z, (0 < m <= 2 ^ 53)%Z -> round_pos (inject_Z m) == inject_Z m).
  { intros m Hm. destruct (Z.eq_dec m (2 ^ 53)) as [-> | Hne].
    - vm_compute. reflexivity.
    - assert (Hm0 : (0 < m)%Z) by lia.
      assert (Hp : 0 < inject_Z m).
      { change 0 with (inject_Z 0). now rewrite <- Zlt_Qlt. }
      assert (E : inject_Z m == inject_Z m * 2 ^ 0) by (change (2 ^ 0) with 1; ring).
      rewrite (round_pos_comp _ _ Hp E), round_pos_representable by lia.
      now symmetry. }
  destruct (Qcompare_spec (inject_Z i) 0) as [E | E | E].
  - now symmetry.
  - change 0 with (inject_Z 0) in E. rewrite <- Zlt_Qlt in E.
    rewrite <- inject_Z_opp, Hrep by lia. rewrite inject_Z_opp. ring.
  - change 0 with (inject_Z 0) in E. rewrite <- Zlt_Qlt in E.
    apply Hrep. lia.
Qed.

Lemma b64_pos (v : Q) : 0 < v -> b64 v == round_pos v.
Proof. intros Hv. unfold b64. destruct (Qcompare_spec v 0); try lra. Qed.

(** ** low_discrepancy_image *)

Lemma fractional_part_range (x : Q) : 0 <= x - np_floor x /\ x - np_floor x < 1.
Proof.
  unfold np_floor.
  pose proof (Qfloor_le x) as Hlo.
  pose proof (Qlt_floor x) as Hhi.
  rewrite inject_Z_plus in Hhi. change (inject_Z 1) with 1 in Hhi.
  split; lra.
Qed.

(** The fractional part as binary64 stores it lies in the closed unit
    interval: the exact value is below 1 and may round to 1. *)
Lemma np_mod1_unit (x : Q) : 0 <= np_mod1 x /\ np_mod1 x <= 1.
Proof.
  unfold np_mod1, fsub. destruct (fractional_part_range x). apply b64_unit; lra.
Qed.


(** The affine map onto the range is monotone in the fractional part. *)
Lemma unit_to_range_bounds (margin t : Q) :
  0 <= margin -> margin <= 1 # 2 -> 0 <= t -> t <= 1 ->
  b64 margin <= fadd margin (fmul (fsub 1 (fmul 2 margin)) t) /\
  fadd margin (fmul (fsub 1 (fmul 2 margin)) t)
  <= fadd margin (fsub 1 (fmul 2 margin)).
Proof.
  intros Hm0 Hm1 Ht0 Ht1. unfold fadd, fmul, fsub.
  destruct (b64_unit (2 * margin)) as [H2a H2b]; [lra | lra |].
  destruct (b64_unit (1 - b64 (2 * margin))) as [Ha0 Ha1]; [lra | lra |].
  set (a := b64 (1 - b64 (2 * margin))) in *.
  assert (Hat0 : 0 <= a * t) by (apply Qmult_le_0_compat; lra).
  assert (Hat1 : 0 <= a * (1 - t)) by (apply Qmult_le_0_compat; lra).
  assert (Hp0 : 0 <= b64 (a * t)) by now apply b64_nonneg.
  assert (Hp1 : b64 (a * t) <= a).
  { apply Qle_trans with (b64 a); [apply b64_mono; lra |].
    unfold a. rewrite b64_idem. apply Qle_refl. }
  split; apply b64_mono; lra.
Qed.

(** C3 (as amended): for a binary64 margin between 0 and 1/2 every
    position lies in the closed interval from [margin] to
    [margin + (1 - 2 * margin)], the latter as binary64 computes it. *)
Theorem low_discrepancy_image_range :
  forall (image : list Z) (seed margin : Q),
    0 <= margin -> margin <= 1 # 2 -> b64 margin == margin ->
    Forall (fun v => margin <= v /\ v <= fadd margin (fsub 1 (fmul 2 margin)))
           (low_discrepancy_image image seed margin).
Proof.
  intros image seed margin Hm0 Hm1 Hm.
  unfold low_discrepancy_image. apply Forall_forall. intros v Hin.
  apply in_map_iff in Hin. destruct Hin as [label [<- _]].
  set (x := fadd seed _).
  destruct (np_mod1_unit x) as [Ht0 Ht1]. unfold np_mod1 in Ht0, Ht1.
  destruct (unit_to_range_bounds margin (fsub x (np_floor x)) Hm0 Hm1 Ht0 Ht1)
    as [Hlo Hhi].
  rewrite Hm in Hlo. split; assumption.
Qed.

Lemma low_discrepancy_image_range_witness :
  Forall (fun v => (1 # 256) <= v /\ v <= fadd (1 # 256) (fsub 1 (fmul 2 (1 # 256))))
         (low_discrepancy_image [0%Z; 1%Z; 7%Z] 0.5 (1 # 256)) /\
  fadd (1 # 256) (fsub 1 (fmul 2 (1 # 256))) == 1 - (1 # 256).
Proof.
  split.
  - apply (low_discrepancy_image_range [0%Z; 1%Z; 7%Z] 0.5 (1 # 256)).
    + discriminate.
    + discriminate.
    + vm_compute. reflexivity.
  - vm_compute. reflexivity.
Defined.

(** C3 (as stated) fails: both ends of the interval are attained. With
    seed 0 the background label 0 is sent to [margin] itself; with the
    seed -2^-60 the fractional part of the label 0 rounds to 1 and the
    position is [1 - margin]. *)
Lemma low_discrepancy_image_attains_margin :
  map Qred (low_discrepancy_image [0%Z] 0 (1 # 256)) = [1 # 256] /\
  map Qred (low_discrepancy_image [0%Z] (- (1 # 2 ^ 60)) (1 # 256)) = [255 # 256].
Proof. split; vm_compute; reflexivity. Qed.

(** ** increment_unnamed_colormap *)

Lemma append_inj_r (t s1 s2 : string) :
  (s1 ++ t)%string = (s2 ++ t)%string -> s1 = s2.
Proof.
  assert (Hlen : forall a b, String.length (a ++ b)%string
                             = (String.length a + String.length b)%nat).
  { induction a; simpl; intros; [reflexivity | now rewrite IHa]. }
  revert s2. induction s1 as [| c s1 IH]; intros [| d s2] H; simpl in H.
  - reflexivity.
  - apply (f_equal String.length) in H. simpl in H. rewrite Hlen in H. lia.
  - apply (f_equal String.length) in H. simpl in H. rewrite Hlen in H. lia.
  - injection H as -> H. f_equal. now apply IH.
Qed.

Lemma str_of_nat_inj (i j : nat) : str_of_nat i = str_of_nat j -> i = j.
Proof.
  unfold str_of_nat. intros H.
  apply DecimalNat.Unsigned.to_uint_inj.
  apply (f_equal NilEmpty.uint_of_string) in H.
  rewrite !NilEmpty.usu in H. now injection H.
Qed.

Lemma unnamed_name_inj (i j : nat) : unnamed_name i = unnamed_name j -> i = j.
Proof.
  unfold unnamed_name. intros H.
  apply str_of_nat_inj, (append_inj_r "]").
  simpl in H. injection H as H. exact H.
Qed.

Lemma unnamed_name_prefix (i : nat) :
  String.prefix "[unnamed colormap" (unnamed_name i) = true.
Proof. reflexivity. Qed.

Lemma increment_unnamed_default (existing : list string) :
  increment_unnamed_colormap existing "[unnamed colormap]"
  = unnamed_name (length (filter (String.prefix "[unnamed colormap") existing)).
Proof. reflexivity. Qed.

Lemma counted_fresh (existing : list string) :
  counted existing ->
  ~ In (increment_unnamed_colormap existing "[unnamed colormap]") existing.
Proof.
  intros Hc Hin. rewrite increment_unnamed_default in Hin.
  apply Hc in Hin. lia.
Qed.

Lemma counted_step (existing : list string) :
  counted existing ->
  counted (existing ++ [increment_unnamed_colormap existing "[unnamed colormap]"]).
Proof.
  intros Hc i Hin. rewrite increment_unnamed_default in *.
  rewrite filter_app, length_app. cbn [filter].
  rewrite unnamed_name_prefix. cbn [length].
  apply in_app_or in Hin. destruct Hin as [Hin | [Heq | []]].
  - apply Hc in Hin. lia.
  - apply unnamed_name_inj in Heq. lia.
Qed.

(** C4 (as amended): when every name of the helper's form that is already
    present has an index below the number of names carrying the prefix (so
    in particular when no name carries it), the returned name is not among
    the existing names, and this stays so over any number of successive
    calls that add the returned name. *)
Theorem increment_unnamed_colormap_fresh :
  forall (existing : list string) (k : nat),
    counted existing ->
    ~ In (increment_unnamed_colormap existing "[unnamed colormap]") existing /\
    Forall (fun call => ~ In (snd call) (fst call)) (successive_calls k existing).
Proof.
  intros existing k Hc. split; [now apply counted_fresh |].
  revert existing Hc. induction k as [| k IH]; intros existing Hc; simpl.
  - constructor.
  - constructor.
    + simpl. now apply counted_fresh.
    + apply IH. now apply counted_step.
Qed.

Lemma counted_no_prefix (existing : list string) :
  Forall (fun n => String.prefix "[unnamed colormap" n = false) existing ->
  counted existing.
Proof.
  intros H i Hin. rewrite Forall_forall in H. apply H in Hin.
  rewrite unnamed_name_prefix in Hin. discriminate.
Qed.

Lemma increment_unnamed_colormap_fresh_witness :
  ~ In (increment_unnamed_colormap ["red"; "viridis"]%string "[unnamed colormap]")
       ["red"; "viridis"]%string /\
  Forall (fun call => ~ In (snd call) (fst call))
         (successive_calls 3 ["red"; "viridis"]%string).
Proof.
  apply (increment_unnamed_colormap_fresh ["red"; "viridis"]%string 3).
  intros i Hin. simpl in Hin.
  destruct Hin as [H | [H | []]]; discriminate H.
Defined.

(** C4 (as stated) fails: a list that holds the name with index 1 and no
    other name with the prefix gets that very name back. *)
Lemma increment_unnamed_colormap_collision :
  In (increment_unnamed_colormap ["[unnamed colormap 1]"%string] "[unnamed colormap]")
     ["[unnamed colormap 1]"%string].
Proof. left. reflexivity. Qed.

(** ** color_dict_to_colormap *)

Lemma row_compare_eq_iff (r s : row) :
  row_compare r s = Eq <-> Forall2 Qeq r s.
Proof.
  revert s. induction r as [| x r IH]; intros [| y s]; simpl.
  - split; [constructor | reflexivity].
  - split; [discriminate | intros H; inversion H].
  - split; [discriminate | intros H; inversion H].
  - destruct (x ?= y) eqn:E.
    + rewrite IH. apply Qeq_alt in E. split.
      * intros H. now constructor.
      * intros H. now inversion H.
    + split; [discriminate |]. intros H. inversion H; subst.
      apply Qeq_alt in H3. congruence.
    + split; [discriminate |]. intros H. inversion H; subst.
      apply Qeq_alt in H3. congruence.
Qed.

Lemma row_eqb_true_iff (r s : row) :
  row_eqb r s = true <-> Forall2 Qeq r s.
Proof.
  rewrite <- row_compare_eq_iff. unfold row_eqb.
  destruct (row_compare r s); split; congruence.
Qed.

Lemma row_eq_sym (r s : row) : Forall2 Qeq r s -> Forall2 Qeq s r.
Proof. induction 1; constructor; [now symmetry | assumption]. Qed.

Lemma row_eq_trans (r s t : row) :
  Forall2 Qeq r s -> Forall2 Qeq s t -> Forall2 Qeq r t.
Proof.
  intros H. revert t. induction H; intros t Ht; inversion Ht; subst;
    constructor; [etransitivity; eassumption | auto].
Qed.

Lemma np_unique_rows_all_equal (a : array) (c : row) :
  a <> [] -> Forall (fun r => Forall2 Qeq r c) a ->
  exists c', np_unique_rows a = [c'] /\ Forall2 Qeq c' c.
Proof.
  induction a as [| r a IH]; intros Hne Hall; [congruence |].
  inversion Hall as [| ? ? Hr Ha]; subst.
  destruct a as [| r' a'].
  - exists r. split; [reflexivity | assumption].
  - destruct IH as [c' [Hu Hc']]; [discriminate | assumption |].
    exists c'. split; [| assumption].
    change (np_unique_rows (r :: r' :: a'))
      with (insert_unique r (np_unique_rows (r' :: a'))).
    rewrite Hu. simpl.
    assert (E : row_compare r c' = Eq).
    { apply row_compare_eq_iff. eapply row_eq_trans; [exact Hr |].
      now apply row_eq_sym. }
    now rewrite E.
Qed.

Lemma color_dict_single_color (colors : list (Z * row)) (c : row) :
  colors <> [] -> Forall (fun lc => Forall2 Qeq (snd lc) c) colors ->
  color_dict_to_colormap colors = Raise ZeroDivisionError.
Proof.
  intros Hne Hall.
  destruct (np_unique_rows_all_equal (map snd colors) c) as [c' [Hu _]].
  - destruct colors; [congruence | discriminate].
  - apply Forall_forall. intros r Hin. apply in_map_iff in Hin.
    destruct Hin as [lc [<- Hin]]. rewrite Forall_forall in Hall. now apply Hall.
  - unfold color_dict_to_colormap. rewrite Hu. reflexivity.
Qed.

(** C10 (as amended): a mapping on which the function returns is empty or
    holds two colours that differ; on a non-empty mapping whose colours
    are all equal the index computation divides by zero and the function
    raises [ZeroDivisionError]. *)
Theorem color_dict_to_colormap_needs_two_colors :
  forall colors : list (Z * row),
    (forall r, color_dict_to_colormap colors = Ret r ->
               colors = [] \/
               exists l1 c1 l2 c2,
                 In (l1, c1) colors /\ In (l2, c2) colors /\ ~ Forall2 Qeq c1 c2) /\
    (colors <> [] ->
     forall c, Forall (fun lc => Forall2 Qeq (snd lc) c) colors ->
               color_dict_to_colormap colors = Raise ZeroDivisionError).
Proof.
  intros colors. split.
  - intros r Hret.
    destruct colors as [| [l0 c0] rest]; [now left | right].
    destruct (forallb (fun lc => row_eqb (snd lc) c0) ((l0, c0) :: rest)) eqn:E.
    + rewrite (color_dict_single_color ((l0, c0) :: rest) c0) in Hret;
        [discriminate | discriminate |].
      apply Forall_forall. intros lc Hin.
      rewrite forallb_forall in E. specialize (E lc Hin).
      now apply row_eqb_true_iff.
    + assert (Hex : existsb (fun lc => negb (row_eqb (snd lc) c0)) ((l0, c0) :: rest) = true).
      { clear -E. induction ((l0, c0) :: rest) as [| x l IH]; simpl in *; [discriminate |].
        destruct (row_eqb (snd x) c0); simpl in *; [now apply IH | reflexivity]. }
      apply existsb_exists in Hex. destruct Hex as [[l1 c1] [Hin Hneq]].
      exists l1, c1, l0, c0. split; [exact Hin | split; [now left |]].
      intros Heq. apply row_eqb_true_iff in Heq. simpl in Hneq.
      rewrite Heq in Hneq. discriminate.
  - intros Hne c Hall. now apply (color_dict_single_color colors c).
Qed.

Lemma color_dict_to_colormap_needs_two_colors_witness :
  color_dict_to_colormap [(1%Z, [1; 0; 0; 1]); (2%Z, [1; 0; 0; 1])]
  = Raise ZeroDivisionError /\
  ([(1%Z, [1; 0; 0; 1]); (2%Z, [0; 1; 0; 1])] = [] \/
   exists l1 c1 l2 c2,
     In (l1, c1) [(1%Z, [1; 0; 0; 1]); (2%Z, [0; 1; 0; 1])] /\
     In (l2, c2) [(1%Z, [1; 0; 0; 1]); (2%Z, [0; 1; 0; 1])] /\
     ~ Forall2 Qeq c1 c2).
Proof.
  split.
  - refine (proj2 (color_dict_to_colormap_needs_two_colors
                     [(1%Z, [1; 0; 0; 1]); (2%Z, [1; 0; 0; 1])]) _
                  [1; 0; 0; 1] _).
    + discriminate.
    + repeat constructor.
  - destruct (color_dict_to_colormap [(1%Z, [1; 0; 0; 1]); (2%Z, [0; 1; 0; 1])])
      as [r |] eqn:E; [| vm_compute in E; discriminate E].
    exact (proj1 (color_dict_to_colormap_needs_two_colors
                    [(1%Z, [1; 0; 0; 1]); (2%Z, [0; 1; 0; 1])]) r E).
Defined.

(** C10 (as stated) fails: the function returns on the empty mapping,
    which holds no colour at all; the comprehensions run over nothing and
    nothing is divided. *)
Lemma color_dict_to_colormap_empty :
  exists cmap index,
    color_dict_to_colormap [] = Ret (cmap, index) /\ index = [].
Proof. eexists. eexists. split; reflexivity. Qed.

Example color_dict_to_colormap_two_colors :
  match color_dict_to_colormap [(1%Z, [1; 0; 0; 1]); (2%Z, [0; 1; 0; 1])] with
  | Ret (cmap, index) =>
      Colormap.colors cmap = [[0; 1; 0; 1]; [1; 0; 0; 1]] /\
      map (fun li => (fst li, Qred (snd li))) index = [(1%Z, 1); (2%Z, 0)]
  | Raise _ => False
  end.
Proof. vm_compute. split; reflexivity. Qed.

(** ** Python dicts *)

Lemma dict_get_set_same {V : Type} (d : pydict V) (k : string) (v : V) :
  dict_get (dict_set d k v) k = Some v.
Proof.
  induction d as [| [k' v'] d IH]; simpl.
  - now rewrite String.eqb_refl.
  - destruct (String.eqb k k') eqn:E; simpl; rewrite E; [reflexivity | exact IH].
Qed.

Lemma dict_mem_set_other {V : Type} (d : pydict V) (k k' : string) (v : V) :
  dict_mem k d = true -> dict_mem k (dict_set d k' v) = true.
Proof.
  unfold dict_mem. induction d as [| [k0 v0] d IH]; simpl; [discriminate |].
  destruct (String.eqb k' k0) eqn:E'; simpl;
    destruct (String.eqb k k0) eqn:E; auto.
Qed.

Lemma dict_mem_set_same {V : Type} (d : pydict V) (k : string) (v : V) :
  dict_mem k (dict_set d k v) = true.
Proof. unfold dict_mem. now rewrite dict_get_set_same. Qed.

Lemma dict_mem_update_l {V : Type} (other d : pydict V) (k : string) :
  dict_mem k d = true -> dict_mem k (dict_update d other) = true.
Proof.
  unfold dict_update. revert d.
  induction other as [| [k' v'] other IH]; intros d H; simpl; [exact H |].
  apply IH. now apply dict_mem_set_other.
Qed.

Lemma dict_mem_update_r {V : Type} (other d : pydict V) (k : string) :
  In k (keys other) -> dict_mem k (dict_update d other) = true.
Proof.
  unfold dict_update. revert d.
  induction other as [| [k' v'] other IH]; intros d H; simpl in *; [contradiction |].
  destruct H as [-> | H].
  - apply (dict_mem_update_l other). apply dict_mem_set_same.
  - now apply IH.
Qed.

Lemma dict_mem_In {V : Type} (d : pydict V) (k : string) :
  dict_mem k d = true <-> In k (keys d).
Proof.
  unfold dict_mem. induction d as [| [k' v'] d IH]; simpl.
  - split; [discriminate | contradiction].
  - destruct (String.eqb_spec k k') as [-> | Hne].
    + split; auto.
    + rewrite IH. split; [auto | intros [E | H]; [congruence | exact H]].
Qed.

Lemma keys_dict_set {V : Type} (d : pydict V) (k : string) (v : V) :
  keys (dict_set d k v) = keys d ++ (if dict_mem k d then [] else [k]).
Proof.
  unfold dict_mem. induction d as [| [k' v'] d IH]; simpl; [reflexivity |].
  destruct (String.eqb k k') eqn:E; simpl.
  - now rewrite app_nil_r.
  - now rewrite IH.
Qed.

Lemma keys_dict_update {V : Type} (other d : pydict V) :
  exists new, keys (dict_update d other) = keys d ++ new.
Proof.
  unfold dict_update. revert d.
  induction other as [| [k v] other IH]; intros d; simpl.
  - exists []. now rewrite app_nil_r.
  - destruct (IH (dict_set d k v)) as [new Hnew].
    rewrite Hnew, keys_dict_set, <- app_assoc. eauto.
Qed.

Lemma dict_set_fresh {V : Type} (d : pydict V) (k : string) (v : V) :
  ~ In k (keys d) -> dict_set d k v = d ++ [(k, v)].
Proof.
  induction d as [| [k' v'] d IH]; simpl; intros H; [reflexivity |].
  destruct (String.eqb_spec k k') as [-> | Hne]; [tauto |].
  rewrite IH; tauto.
Qed.

Lemma dict_update_fresh {V : Type} (other d : pydict V) :
  NoDup (keys (d ++ other)) -> dict_update d other = d ++ other.
Proof.
  unfold dict_update, keys. revert d.
  induction other as [| [k v] other IH]; intros d H; simpl.
  - now rewrite app_nil_r.
  - rewrite map_app in H. simpl in H.
    pose proof (NoDup_remove_2 _ _ _ H) as Hk.
    rewrite dict_set_fresh.
    + rewrite IH; rewrite <- app_assoc; [reflexivity |].
      rewrite map_app. exact H.
    + intros Hin. apply Hk. apply in_or_app. now left.
Qed.

Lemma NoDup_keys_dict_set {V : Type} (d : pydict V) (k : string) (v : V) :
  NoDup (keys d) -> NoDup (keys (dict_set d k v)).
Proof.
  intros H. rewrite keys_dict_set.
  destruct (dict_mem k d) eqn:E; [now rewrite app_nil_r |].
  apply NoDup_app; [exact H | repeat constructor; auto | ].
  intros x Hx [<- | []]. apply dict_mem_In in Hx. congruence.
Qed.

Lemma NoDup_keys_dict_update {V : Type} (other d : pydict V) :
  NoDup (keys d) -> NoDup (keys (dict_update d other)).
Proof.
  unfold dict_update. revert d.
  induction other as [| [k v] other IH]; intros d H; simpl; [exact H |].
  apply IH. now apply NoDup_keys_dict_set.
Qed.

(** ** sorted *)

Lemma insert_sorted_In {V : Type} (kv : string * V) (l : list (string * V)) (k : string) :
  In k (keys (insert_sorted kv l)) <-> k = fst kv \/ In k (keys l).
Proof.
  induction l as [| kv' l IH]; simpl.
  - intuition.
  - destruct (String.leb (fst kv) (fst kv')); simpl; [intuition |].
    rewrite IH. intuition.
Qed.

Lemma NoDup_insert_sorted {V : Type} (kv : string * V) (l : list (string * V)) :
  ~ In (fst kv) (keys l) -> NoDup (keys l) -> NoDup (keys (insert_sorted kv l)).
Proof.
  induction l as [| kv' l IH]; simpl; intros Hin Hnd.
  - repeat constructor; auto.
  - destruct (String.leb (fst kv) (fst kv')); simpl.
    + constructor; [simpl; tauto | exact Hnd].
    + inversion Hnd; subst. constructor.
      * rewrite insert_sorted_In. intros [E | H]; [| contradiction].
        apply Hin. now left.
      * apply IH; [tauto | assumption].
Qed.

Lemma Sorted_insert_sorted {V : Type} (kv : string * V) (l : list (string * V)) :
  Sorted string_le (keys l) -> Sorted string_le (keys (insert_sorted kv l)).
Proof.
  induction l as [| kv' l IH]; simpl; intros Hs.
  - repeat constructor.
  - destruct (String.leb (fst kv) (fst kv')) eqn:E; simpl.
    + constructor; [exact Hs | constructor; exact E].
    + inversion Hs as [| ? ? Hs' Hhd]; subst.
      constructor; [now apply IH |].
      assert (Hle : string_le (fst kv') (fst kv)).
      { destruct (String.leb_total (fst kv) (fst kv')) as [H | H];
          [congruence | exact H]. }
      destruct l as [| kv'' l]; simpl.
      * constructor. exact Hle.
      * destruct (String.leb (fst kv) (fst kv'')); simpl; constructor;
          [exact Hle | now inversion Hhd].
Qed.

Lemma sorted_items_In {V : Type} (d : pydict V) (k : string) :
  In k (keys (sorted_items d)) <-> In k (keys d).
Proof.
  unfold sorted_items. induction d as [| kv d IH]; simpl; [tauto |].
  rewrite insert_sorted_In, IH. intuition.
Qed.

Lemma sorted_items_spec {V : Type} (d : pydict V) :
  NoDup (keys d) ->
  Sorted string_le (keys (sorted_items d)) /\ NoDup (keys (sorted_items d)).
Proof.
  unfold sorted_items. induction d as [| kv d IH]; simpl; intros Hnd.
  - split; constructor.
  - inversion Hnd; subst. destruct IH as [Hs Hn]; [assumption |]. split.
    + now apply Sorted_insert_sorted.
    + apply NoDup_insert_sorted; [| exact Hn].
      fold (sorted_items d). now rewrite sorted_items_In.
Qed.

(** ** ensure_colormap *)

Section RegistryProperties.

Variable get_colormaps : pydict VispyColormap.
Variable cm : string -> option (list Q -> result array).
Variable matplotlib_colormaps : list string.
Variable bopd : pydict array.
Variable Colormap_kwargs : pydict pyobj -> result Colormap.
Variable colormap_eq : VispyColormap -> Colormap -> bool.

Local Abbreviation ensure :=
  (ensure_colormap get_colormaps cm Colormap_kwargs colormap_eq).
Local Abbreviation initial_registry :=
  (AVAILABLE_COLORMAPS get_colormaps cm matplotlib_colormaps bopd).

Ltac run_registry :=
  unfold ensure_colormap, bind, ret, raise, lift, setitem, getitem,
    get_registry, update, warn; cbn beta iota.

(** What a call can do to the registry: leave it as it is (raising or
    returning), set one key and return the value stored, or update it with
    a non-empty dict and return. *)
Lemma ensure_colormap_cases (colormap : pyobj) (s : registry) :
  (exists e, ensure colormap s = (s, Raise e)) \/
  (exists c, ensure colormap s = (s, Ret c)) \/
  (exists k v, ensure colormap s = (dict_set s k v, Ret v)) \/
  (exists o c, o <> [] /\ ensure colormap s = (dict_update s o, Ret c)).
Proof.
  destruct colormap as [name | c | v | items | items | a | t].
  - (* str *)
    run_registry. destruct (dict_mem name s) eqn:Hmem; cbn.
    + right. left. unfold dict_mem in Hmem.
      destruct (dict_get s name) as [c |]; [eauto | discriminate].
    + destruct (vispy_or_mpl_colormap get_colormaps cm name) as [cmap | e].
      * right. right. left. exists name, cmap.
        now rewrite dict_get_set_same.
      * left. eauto.
  - (* Colormap *)
    run_registry. right. right. left. exists (Colormap.name c), c.
    now rewrite dict_get_set_same.
  - (* vispy colormap *)
    run_registry. cbn. right. right. left.
    rewrite dict_get_set_same. eauto.
  - (* tuple *)
    run_registry.
    destruct items as [| [n | c | v | i | i | a | t] [| [n' | c' | v' | i' | i' | a' | t'] [| z l]]];
      cbn; try (left; eauto; fail);
      right; right; left; rewrite dict_get_set_same; eauto.
  - (* dict *)
    run_registry.
    destruct (match dict_get items "colors" with
              | Some v => negb (isinstance_VispyColormap v || isinstance_Colormap v)
              | None => false
              end).
    + destruct (Colormap_kwargs items) as [cmap | e]; cbn.
      * right. right. left. rewrite dict_get_set_same. eauto.
      * left. eauto.
    + destruct (negb (forallb _ (map snd items))); cbn; [left; eauto |].
      destruct (rmap _ items) as [converted | e]; cbn; [| left; eauto].
      destruct converted as [| [name c] [| kv rest]]; cbn.
      * left. eauto.
      * right. right. left. rewrite dict_get_set_same. eauto.
      * right. right. right.
        pose proof (dict_mem_update_r ((name, c) :: kv :: rest) s name) as Hmem.
        unfold dict_mem, dict_update in Hmem. cbn in Hmem.
        destruct (dict_get _ name) as [c' |] eqn:Hget.
        -- exists ((name, c) :: kv :: rest), c'. split; [discriminate | reflexivity].
        -- discriminate Hmem. now left.
  - run_registry. left. eauto.
  - run_registry. left. eauto.
Qed.

(** C8: a call that raises leaves the registry exactly as it found it. *)
Theorem ensure_colormap_failure_atomic :
  forall (colormap : pyobj) (available available' : registry) (e : exn),
    ensure colormap available = (available', Raise e) ->
    available' = available.
Proof.
  intros colormap available available' e H.
  destruct (ensure_colormap_cases colormap available)
    as [[e' E] | [[c E] | [[k [v E]] | [o [c [_ E]]]]]];
    rewrite E in H; congruence.
Qed.

(** C9: on the empty dict the call raises the [ValueError] of the empty
    mapping, whose kind is [InvalidArgument], whatever the registry holds;
    the registry is left as it was. *)
Theorem ensure_colormap_empty_dict :
  forall available : registry,
    ensure (PyDict []) available = (available, Raise ValueError_empty_dict) /\
    error_kind ValueError_empty_dict = Some InvalidArgument /\
    error_kind ValueError_empty_dict <> Some TypeMismatch.
Proof.
  intros available. split; [reflexivity | split; [reflexivity | discriminate]].
Qed.

Lemma dict_of_items_NoDup {V : Type} (items : list (string * V)) :
  NoDup (keys (dict_of_items items)).
Proof. apply NoDup_keys_dict_update. constructor. Qed.

Lemma initial_registry_sorted (reg : registry) :
  initial_registry = Ret reg -> Sorted string_le (keys reg).
Proof.
  unfold AVAILABLE_COLORMAPS, ALL_COLORMAPS, rbind.
  destruct (rmap _ matplotlib_colormaps) as [items | e]; [| discriminate].
  intros H. injection H as <-.
  set (all := dict_update (dict_update (dict_of_items items) SIMPLE_COLORMAPS)
                (BOP_COLORMAPS bopd)).
  assert (Hall : NoDup (keys all)).
  { unfold all. do 2 apply NoDup_keys_dict_update. apply dict_of_items_NoDup. }
  destruct (sorted_items_spec all Hall) as [Hs Hn].
  unfold dict_of_items at 1. rewrite dict_update_fresh; [exact Hs | exact Hn].
Qed.

(** C7 (as amended): the names of the initial registry are sorted; a call
    of [ensure_colormap], failed or not, keeps the names it found in their
    order and puts the names it adds after them. *)
Theorem registry_names_order :
  (forall reg : registry,
     initial_registry = Ret reg -> Sorted string_le (keys reg)) /\
  (forall (colormap : pyobj) (available : registry),
     exists new : list string,
       keys (fst (ensure colormap available)) = keys available ++ new).
Proof.
  split; [exact initial_registry_sorted |].
  intros colormap available.
  destruct (ensure_colormap_cases colormap available)
    as [[e' E] | [[c E] | [[k [v E]] | [o [c [_ E]]]]]];
    rewrite E; cbn [fst].
  - exists []. now rewrite app_nil_r.
  - exists []. now rewrite app_nil_r.
  - rewrite keys_dict_set. eauto.
  - apply keys_dict_update.
Qed.

Lemma Sorted_app_inv (l : list string) (k n : string) :
  Sorted string_le (l ++ [k; n]) -> string_le k n.
Proof.
  induction l as [| a l IH]; simpl; intros H.
  - inversion H as [| ? ? _ Hhd]; subst. now inversion Hhd.
  - inversion H; subst. now apply IH.
Qed.

(** Registering a colormap under a new name that sorts before the last
    name of the registry leaves the names out of order. *)
Lemma registering_smaller_name_unsorts (c : Colormap) (available : registry)
    (l : list string) (k : string) :
  keys available = l ++ [k] ->
  ~ In (Colormap.name c) (keys available) ->
  String.leb k (Colormap.name c) = false ->
  ~ Sorted string_le (keys (fst (ensure (PyColormap c) available))).
Proof.
  intros Hkeys Hnew Hlt Hsorted.
  assert (E : ensure (PyColormap c) available
              = (dict_set available (Colormap.name c) c, Ret c)).
  { run_registry. now rewrite dict_get_set_same. }
  rewrite E in Hsorted. cbn [fst] in Hsorted.
  rewrite keys_dict_set in Hsorted.
  destruct (dict_mem (Colormap.name c) available) eqn:Hmem.
  - apply dict_mem_In in Hmem. contradiction.
  - rewrite Hkeys, <- app_assoc in Hsorted. cbn [app] in Hsorted.
    apply Sorted_app_inv in Hsorted. unfold string_le in Hsorted. congruence.
Qed.

Lemma ensure_colormap_vispy (v : VispyColormap) (s : registry) :
  exists name c,
    name = (if py_not (first_equal colormap_eq v s)
            then increment_unnamed_colormap (keys s) "[unnamed colormap]"
            else match first_equal colormap_eq v s with
                 | Some key => key
                 | None => ""%string
                 end) /\
    convert_vispy_colormap (PyVispy v) (Some name) = Ret c /\
    Colormap.name c = name /\
    ensure (PyVispy v) s = (dict_set s name c, Ret c).
Proof.
  eexists. eexists. split; [reflexivity |]. split; [reflexivity |].
  split; [reflexivity |].
  run_registry. cbn. now rewrite dict_get_set_same.
Qed.

End RegistryProperties.

(** ** The sampler *)

Lemma np_clip01_range (x : Q) : 0 <= np_clip01 x /\ np_clip01 x <= 1.
Proof.
  unfold np_clip01.
  destruct (Q.min_spec (Qmax x 0) 1) as [[H0 E] | [H0 E]];
    destruct (Q.max_spec x 0) as [[H1 E'] | [H1 E']];
    split; lra.
Qed.

Lemma Qltb_lt (a b : Q) : Qltb a b = true <-> a < b.
Proof.
  unfold Qltb. rewrite Qlt_alt. destruct (a ?= b); split; congruence.
Qed.

Lemma validate_rgb_triples (colors : array) (tolerance : Q) :
  Forall (fun r : row => length r = 3%nat) colors ->
  rgb_triples (_validate_rgb colors tolerance).
Proof.
  intros H. unfold _validate_rgb, rgb_triples.
  apply Forall_forall. intros r Hin.
  apply in_map_iff in Hin. destruct Hin as [r0 [<- Hin]].
  apply filter_In in Hin. destruct Hin as [Hin _].
  rewrite Forall_forall in H. split.
  - rewrite length_map. now apply H.
  - apply Forall_forall. intros c Hc. apply in_map_iff in Hc.
    destruct Hc as [c0 [<- _]]. apply np_clip01_range.
Qed.

Lemma validate_rgb_length (colors : array) (tolerance : Q) :
  length (_validate_rgb colors tolerance)
  = length (filter (fun r : row =>
                      forallb (fun c => Qltb (0 - tolerance) c && Qltb c (1 + tolerance)) r)
                   colors).
Proof. unfold _validate_rgb. now rewrite length_map. Qed.

(** No colour passes when the tolerance is -1/2 or less. *)
Lemma validate_rgb_negative_tolerance (colors : array) (tolerance : Q) :
  tolerance <= - (1 # 2) ->
  Forall (fun r : row => length r = 3%nat) colors ->
  _validate_rgb colors tolerance = [].
Proof.
  intros Htol H. unfold _validate_rgb.
  replace (filter _ colors) with (@nil row); [reflexivity |].
  symmetry. induction H as [| r colors Hr _ IH]; [reflexivity |].
  simpl. rewrite <- IH.
  destruct r as [| c r]; [discriminate |]. simpl.
  destruct (Qltb (0 - tolerance) c) eqn:E1; [| reflexivity].
  destruct (Qltb c (1 + tolerance)) eqn:E2; [| reflexivity].
  apply Qltb_lt in E1, E2. lra.
Qed.

Lemma low_discrepancy_3 (seed : seed_arg) (m : Z) :
  seed_shape_ok seed = true ->
  exists s1 s2 s3,
    _low_discrepancy 3 m seed = Ret (map (point s1 s2 s3) (arange m)).
Proof.
  destruct seed as [s | v]; simpl; intros H.
  - exists s, s, s. reflexivity.
  - destruct v as [| s1 [| s2 [| s3 [| s4 v]]]]; try discriminate H.
    exists s1, s2, s3. reflexivity.
Qed.



(** *** Candidates of the sequence *)


Lemma np_clip01_fixed (v : Q) : 0 <= v -> v <= 1 -> np_clip01 v = v.
Proof.
  intros H0 H1.
  unfold np_clip01, Qmax, Qmin, GenericMinMax.gmax, GenericMinMax.gmin.
  assert (E0 : (v ?= 0) <> Lt) by (rewrite <- Qlt_alt; lra).
  assert (E1 : (v ?= 1) <> Gt) by (rewrite <- Qgt_alt; lra).
  destruct (v ?= 0); try congruence; destruct (v ?= 1); congruence.
Qed.

Lemma filter_all {A : Type} (p : A -> bool) (l : list A) :
  Forall (fun a => p a = true) l -> filter p l = l.
Proof.
  induction 1 as [| a l Ha _ IH]; simpl; [reflexivity |].
  now rewrite Ha, IH.
Qed.

Lemma valid_channel (tolerance c : Q) :
  Qltb (0 - tolerance) c && Qltb c (1 + tolerance) = true <->
  0 - tolerance < c /\ c < 1 + tolerance.
Proof. now rewrite andb_true_iff, !Qltb_lt. Qed.



(** *** A seed from 2^52 on: every candidate has a zero channel *)





(** *** label_colormap *)



Lemma arange_succ (m : Z) :
  (0 <= m)%Z -> arange (m + 1) = arange m ++ [m].
Proof.
  intros Hm. unfold arange.
  replace (Z.to_nat (m + 1)) with (S (Z.to_nat m)) by lia.
  rewrite seq_S, map_app. simpl. now rewrite Z2Nat.id.
Qed.





Section SamplerProperties.

Variable lab2rgb : Q * Q * Q -> Q * Q * Q.
Variable luv2rgb : Q * Q * Q -> Q * Q * Q.

Local Abbreviation pass := (color_pass lab2rgb luv2rgb).
Local Abbreviation loop := (_color_random_loop lab2rgb luv2rgb).
Local Abbreviation color_random := (_color_random lab2rgb luv2rgb).

Lemma colorconv_rows_length (f : Q * Q * Q -> Q * Q * Q) (a : array) :
  Forall (fun r : row => length r = 3%nat) a ->
  Forall (fun r : row => length r = 3%nat) (colorconv_rows f a).
Proof.
  intros H. unfold colorconv_rows. apply Forall_forall. intros r Hin.
  apply in_map_iff in Hin. destruct Hin as [r0 [<- Hin]].
  rewrite Forall_forall in H. specialize (H r0 Hin).
  destruct r0 as [| x [| y [| z [| w r0]]]]; try discriminate H.
  destruct (f (x, y, z)) as [[r' g'] b']. reflexivity.
Qed.

Lemma scale_rows_length (random : array) (rng mn : row) :
  length rng = 3%nat -> length mn = 3%nat ->
  Forall (fun r : row => length r = 3%nat) random ->
  Forall (fun r : row => length r = 3%nat) (scale_rows random rng mn).
Proof.
  intros Hr Hm H. unfold scale_rows. apply Forall_forall. intros r Hin.
  apply in_map_iff in Hin. destruct Hin as [r0 [<- Hin]].
  rewrite Forall_forall in H. specialize (H r0 Hin).
  destruct r0 as [| x [| y [| z [| w r0]]]]; try discriminate H.
  destruct rng as [| a [| b [| c [| d rng]]]]; try discriminate Hr.
  destruct mn as [| a' [| b' [| c' [| d' mn]]]]; try discriminate Hm.
  reflexivity.
Qed.

(** A pass never raises on a well-shaped seed, and what it keeps are RGB
    triples in the unit cube. *)
Lemma color_pass_triples (n : Z) (colorspace : string) (tolerance : Q)
    (seed : seed_arg) (factor : Z) :
  seed_shape_ok seed = true ->
  exists rgb, pass n colorspace tolerance seed factor = Ret rgb /\ rgb_triples rgb.
Proof.
  intros Hseed. unfold color_pass.
  destruct (low_discrepancy_3 seed (n * factor) Hseed) as [s1 [s2 [s3 E]]].
  rewrite E. cbn [rbind].
  assert (Hpts : Forall (fun r : row => length r = 3%nat)
                        (map (point s1 s2 s3) (arange (n * factor)))).
  { apply Forall_forall. intros r Hin. apply in_map_iff in Hin.
    destruct Hin as [i [<- _]]. reflexivity. }
  eexists. split; [reflexivity |].
  apply validate_rgb_triples.
  destruct (String.eqb colorspace "luv"); [| destruct (String.eqb colorspace "rgb")].
  - apply colorconv_rows_length, scale_rows_length; auto.
  - exact Hpts.
  - apply colorconv_rows_length, scale_rows_length; auto.
Qed.

Lemma color_pass_negative_tolerance (n : Z) (colorspace : string)
    (tolerance : Q) (seed : seed_arg) (factor : Z) :
  seed_shape_ok seed = true -> tolerance <= - (1 # 2) ->
  pass n colorspace tolerance seed factor = Ret [].
Proof.
  intros Hseed Htol. unfold color_pass.
  destruct (low_discrepancy_3 seed (n * factor) Hseed) as [s1 [s2 [s3 E]]].
  rewrite E. cbn [rbind].
  assert (Hpts : Forall (fun r : row => length r = 3%nat)
                        (map (point s1 s2 s3) (arange (n * factor)))).
  { apply Forall_forall. intros r Hin. apply in_map_iff in Hin.
    destruct Hin as [i [<- _]]. reflexivity. }
  f_equal. apply validate_rgb_negative_tolerance; [exact Htol |].
  destruct (String.eqb colorspace "luv"); [| destruct (String.eqb colorspace "rgb")].
  - apply colorconv_rows_length, scale_rows_length; auto.
  - exact Hpts.
  - apply colorconv_rows_length, scale_rows_length; auto.
Qed.

Lemma color_random_loop_diverges (fuel : nat) (n : Z) (colorspace : string)
    (tolerance : Q) (seed : seed_arg) (factor : Z) :
  (1 <= n)%Z -> seed_shape_ok seed = true -> tolerance <= - (1 # 2) ->
  loop fuel n colorspace tolerance seed factor [] = None.
Proof.
  intros Hn Hseed Htol. revert factor.
  induction fuel as [| fuel IH]; intros factor; simpl.
  - destruct (Z.ltb_spec 0 n); [reflexivity | lia].
  - destruct (Z.ltb_spec 0 n); [| lia].
    rewrite color_pass_negative_tolerance by assumption. apply IH.
Qed.


Lemma loop_unfold (fuel : nat) (n : Z) (colorspace : string) (tolerance : Q)
    (seed : seed_arg) (factor : Z) (rgb : array) :
  loop fuel n colorspace tolerance seed factor rgb
  = if (Z.of_nat (length rgb) <? n)%Z then
      match fuel with
      | O => None
      | S fuel' =>
          match pass n colorspace tolerance seed factor with
          | Raise e => Some (Raise e)
          | Ret rgb' => loop fuel' n colorspace tolerance seed (factor * 2)%Z rgb'
          end
      end
    else Some (Ret (firstn (Z.to_nat n) rgb)).
Proof. destruct fuel; reflexivity. Qed.

(** More fuel does not change the answer of a loop that has left. *)
Lemma loop_fuel_mono (fuel fuel' : nat) (n : Z) (colorspace : string)
    (tolerance : Q) (seed : seed_arg) (factor : Z) (rgb : array)
    (r : result array) :
  (fuel <= fuel')%nat ->
  loop fuel n colorspace tolerance seed factor rgb = Some r ->
  loop fuel' n colorspace tolerance seed factor rgb = Some r.
Proof.
  revert fuel' factor rgb.
  induction fuel as [| fuel IH]; intros fuel' factor rgb Hle H;
    rewrite loop_unfold in H; rewrite loop_unfold;
    destruct (Z.of_nat (length rgb) <? n)%Z; try exact H; try discriminate H.
  destruct fuel' as [| fuel']; [lia |].
  destruct (pass n colorspace tolerance seed factor); [| exact H].
  apply IH; [lia | exact H].
Qed.

Lemma rgb_triples_firstn (m : nat) (rgb : array) :
  rgb_triples rgb -> rgb_triples (firstn m rgb).
Proof.
  unfold rgb_triples. intros H. rewrite <- (firstn_skipn m rgb) in H.
  apply Forall_app in H. tauto.
Qed.

(** The loop leaves at the first pass that keeps enough colours: when the
    pass of factor [factor * 2^k] does, [k + 1] units of fuel are enough. *)
Lemma loop_returns (k : nat) (n : Z) (colorspace : string) (tolerance : Q)
    (seed : seed_arg) :
  (0 <= n)%Z -> seed_shape_ok seed = true ->
  forall (factor : Z) (rgb0 : array),
    rgb_triples rgb0 ->
    (exists rgb, pass n colorspace tolerance seed (factor * 2 ^ Z.of_nat k) = Ret rgb /\
                 (n <= Z.of_nat (length rgb))%Z) ->
    exists rgb,
      loop (S k) n colorspace tolerance seed factor rgb0 = Some (Ret rgb) /\
      Z.of_nat (length rgb) = n /\ rgb_triples rgb.
Proof.
  intros Hn Hseed.
  assert (Hleave : forall fuel factor rgb0,
             rgb_triples rgb0 -> (n <= Z.of_nat (length rgb0))%Z ->
             exists rgb,
               loop fuel n colorspace tolerance seed factor rgb0 = Some (Ret rgb) /\
               Z.of_nat (length rgb) = n /\ rgb_triples rgb).
  { intros fuel factor rgb0 Ht Hlen. rewrite loop_unfold.
    destruct (Z.ltb_spec (Z.of_nat (length rgb0)) n); [lia |].
    eexists. split; [reflexivity |]. split; [| now apply rgb_triples_firstn].
    rewrite length_firstn. lia. }
  induction k as [| k IH]; intros factor rgb0 Ht [rgb [Hpass Hlen]].
  - rewrite loop_unfold.
    destruct (Z.ltb_spec (Z.of_nat (length rgb0)) n).
    + change (2 ^ Z.of_nat 0)%Z with 1%Z in Hpass. rewrite Z.mul_1_r in Hpass.
      rewrite Hpass. apply Hleave; [| exact Hlen].
      destruct (color_pass_triples n colorspace tolerance seed factor Hseed)
        as [rgb' [E Ht']]. congruence.
    + eexists. split; [reflexivity |]. split; [| now apply rgb_triples_firstn].
      rewrite length_firstn. lia.
  - rewrite loop_unfold.
    destruct (Z.ltb_spec (Z.of_nat (length rgb0)) n).
    + destruct (color_pass_triples n colorspace tolerance seed factor Hseed)
        as [rgb' [E Ht']].
      rewrite E. apply IH; [exact Ht' |].
      exists rgb. split; [| exact Hlen].
      rewrite <- Hpass. f_equal.
      rewrite Nat2Z.inj_succ, Z.pow_succ_r by lia. ring.
    + eexists. split; [reflexivity |]. split; [| now apply rgb_triples_firstn].
      rewrite length_firstn. lia.
Qed.

Lemma color_random_total (n : Z) (colorspace : string) (tolerance : Q)
    (seed : seed_arg) (k : nat) :
  (0 <= n)%Z -> seed_shape_ok seed = true ->
  pass_accepts lab2rgb luv2rgb n colorspace tolerance seed k ->
  exists rgb,
    (forall fuel, (S k <= fuel)%nat ->
                  color_random fuel n colorspace tolerance seed = Some (Ret rgb)) /\
    Z.of_nat (length rgb) = n /\ rgb_triples rgb.
Proof.
  intros Hn Hseed Hacc.
  destruct (loop_returns k n colorspace tolerance seed Hn Hseed 6%Z [])
    as [rgb [E [Hlen Ht]]]; [constructor | exact Hacc |].
  exists rgb. split; [| split; assumption].
  intros fuel Hfuel. unfold _color_random.
  now apply (loop_fuel_mono (S k)).
Qed.



Lemma arange_length (n : Z) : length (arange n) = Z.to_nat n.
Proof. unfold arange. now rewrite length_map, length_seq. Qed.



(** Whatever the loop returns is [n] RGB triples in the unit cube. *)
Lemma loop_result_triples (fuel : nat) (n : Z) (colorspace : string)
    (tolerance : Q) (seed : seed_arg) :
  (0 <= n)%Z -> seed_shape_ok seed = true ->
  forall (factor : Z) (rgb0 rgb : array),
    rgb_triples rgb0 ->
    loop fuel n colorspace tolerance seed factor rgb0 = Some (Ret rgb) ->
    Z.of_nat (length rgb) = n /\ rgb_triples rgb.
Proof.
  intros Hn Hseed.
  induction fuel as [| fuel IH]; intros factor rgb0 rgb Ht H;
    rewrite loop_unfold in H;
    destruct (Z.ltb_spec (Z.of_nat (length rgb0)) n); try discriminate H.
  - injection H as <-. split; [| now apply rgb_triples_firstn].
    rewrite length_firstn. lia.
  - destruct (color_pass_triples n colorspace tolerance seed factor Hseed)
      as [rgb' [E Ht']].
    rewrite E in H. now apply (IH _ _ _ Ht' H).
  - injection H as <-. split; [| now apply rgb_triples_firstn].
    rewrite length_firstn. lia.
Qed.


Lemma loop_never_raises (fuel : nat) (n : Z) (colorspace : string)
    (tolerance : Q) (seed : seed_arg) (factor : Z) (rgb : array) (e : exn) :
  seed_shape_ok seed = true ->
  loop fuel n colorspace tolerance seed factor rgb <> Some (Raise e).
Proof.
  intros Hseed. revert factor rgb.
  induction fuel as [| fuel IH]; intros factor rgb; rewrite loop_unfold;
    destruct (Z.of_nat (length rgb) <? n)%Z; try discriminate.
  destruct (color_pass_triples n colorspace tolerance seed factor Hseed)
    as [rgb' [E _]].
  rewrite E. apply IH.
Qed.

(** A loop that has left either found enough colours on entry or left
    after a pass that kept enough. *)
Lemma loop_returns_inv (fuel : nat) (n : Z) (colorspace : string)
    (tolerance : Q) (seed : seed_arg) :
  forall (factor : Z) (rgb0 rgb : array),
    loop fuel n colorspace tolerance seed factor rgb0 = Some (Ret rgb) ->
    (n <= Z.of_nat (length rgb0))%Z \/
    exists j rgb', (j < fuel)%nat /\
      pass n colorspace tolerance seed (factor * 2 ^ Z.of_nat j) = Ret rgb' /\
      (n <= Z.of_nat (length rgb'))%Z.
Proof.
  induction fuel as [| fuel IH]; intros factor rgb0 rgb H;
    rewrite loop_unfold in H;
    destruct (Z.ltb_spec (Z.of_nat (length rgb0)) n); try (left; lia);
    try discriminate H.
  right.
  destruct (pass n colorspace tolerance seed factor) as [rgb' |] eqn:E;
    [| discriminate H].
  destruct (IH _ _ _ H) as [Hlen | [j [rgb'' [Hj [Hpass Hlen]]]]].
  - exists 0%nat, rgb'. split; [lia |]. split; [| exact Hlen].
    change (2 ^ Z.of_nat 0)%Z with 1%Z. now rewrite Z.mul_1_r.
  - exists (S j), rgb''. split; [lia |]. split; [| exact Hlen].
    rewrite <- Hpass. f_equal.
    rewrite Nat2Z.inj_succ, Z.pow_succ_r by lia. ring.
Qed.

(** C2 (as amended): the loop has no bound on its passes and no error of
    its own. For [n >= 1] and a float or (3,) seed the call never raises;
    it returns exactly when some pass keeps [n] colours; and with a
    tolerance of -1/2 or less no pass keeps any, so the call has not
    returned after any number of passes. *)
Theorem color_random_unbounded :
  forall (n : Z) (colorspace : string) (tolerance : Q) (seed : seed_arg),
    (1 <= n)%Z -> seed_shape_ok seed = true ->
    (forall fuel e,
        color_random fuel n colorspace tolerance seed <> Some (Raise e)) /\
    ((exists fuel rgb,
         color_random fuel n colorspace tolerance seed = Some (Ret rgb)) <->
     (exists k, pass_accepts lab2rgb luv2rgb n colorspace tolerance seed k)) /\
    (tolerance <= - (1 # 2) ->
     forall fuel, color_random fuel n colorspace tolerance seed = None).
Proof.
  intros n colorspace tolerance seed Hn Hseed. split; [| split].
  - intros fuel e. unfold _color_random. now apply loop_never_raises.
  - split.
    + intros [fuel [rgb H]]. unfold _color_random in H.
      apply loop_returns_inv in H.
      destruct H as [H | [j [rgb' [_ [Hpass Hlen]]]]]; [simpl in H; lia |].
      exists j, rgb'. split; assumption.
    + intros [k Hk].
      destruct (color_random_total n colorspace tolerance seed k)
        as [rgb [H _]]; [lia | assumption | assumption |].
      exists (S k), rgb. apply H. lia.
  - intros Htol fuel. unfold _color_random.
    now apply color_random_loop_diverges.
Qed.

Local Abbreviation label := (label_colormap lab2rgb luv2rgb).



End SamplerProperties.

(** ** Concrete runs *)

Lemma is_sorted_spec (l : list string) :
  Sorted string_le l -> is_sorted l = true.
Proof.
  induction 1 as [| a l Hl IH Hhd]; [reflexivity |].
  destruct l as [| b l]; [reflexivity |].
  cbn [is_sorted]. inversion Hhd; subst. unfold string_le in *.
  apply andb_true_intro. split; assumption.
Qed.

Example sample_registry_names :
  keys sample_registry
  = ["blue"; "bop blue"; "cyan"; "grays"; "green"; "magenta"; "red";
     "viridis"; "yellow"]%string.
Proof. vm_compute. reflexivity. Qed.

Lemma registry_names_order_witness :
  exists reg : registry,
    AVAILABLE_COLORMAPS sample_get_colormaps sample_cm
      sample_matplotlib_colormaps sample_bopd = Ret reg /\
    Sorted string_le (keys reg).
Proof.
  destruct (AVAILABLE_COLORMAPS sample_get_colormaps sample_cm
              sample_matplotlib_colormaps sample_bopd) as [reg | e] eqn:E;
    [| vm_compute in E; discriminate E].
  exists reg. split; [reflexivity |].
  exact (proj1 (registry_names_order sample_get_colormaps sample_cm
                  sample_matplotlib_colormaps sample_bopd
                  sample_Colormap_kwargs structural_eq) reg E).
Defined.

(** C7 (as stated) fails: registering a colormap named "alpha" puts its
    name after "yellow", and the names are no longer sorted. *)
Lemma registry_names_unsorted :
  keys (fst (sample_ensure
               (PyColormap (Colormap_init [[0; 0; 0; 1]; [1; 1; 1; 1]]
                              (Some "alpha"%string) None None))
               sample_registry))
  = ["blue"; "bop blue"; "cyan"; "grays"; "green"; "magenta"; "red";
     "viridis"; "yellow"; "alpha"]%string /\
  ~ Sorted string_le
      (keys (fst (sample_ensure
                    (PyColormap (Colormap_init [[0; 0; 0; 1]; [1; 1; 1; 1]]
                                   (Some "alpha"%string) None None))
                    sample_registry))).
Proof.
  split; [vm_compute; reflexivity |].
  intros H. apply is_sorted_spec in H. vm_compute in H. discriminate H.
Qed.

Lemma ensure_colormap_failure_atomic_witness :
  fst (sample_ensure (PyStr "nonexistent_name_xyz") sample_registry)
  = sample_registry.
Proof.
  apply (ensure_colormap_failure_atomic sample_get_colormaps sample_cm
           sample_Colormap_kwargs structural_eq
           (PyStr "nonexistent_name_xyz") sample_registry _ KeyError_not_found).
  vm_compute. reflexivity.
Defined.

Example ensure_colormap_failures :
  map (fun colormap => snd (sample_ensure colormap sample_registry))
      [PyStr "nonexistent_name_xyz"; PyTuple [PyStr "a"]; PyDict [];
       PyDict [("a"%string, PyOther "int")]; PyOther "int"]
  = [Raise KeyError_not_found; Raise TypeError_tuple; Raise ValueError_empty_dict;
     Raise TypeError_dict; Raise TypeError_invalid_type].
Proof. vm_compute. reflexivity. Qed.

(** C5 fails on the code: once a colormap equal to the foreign one is
    stored under the empty name, the search of the vispy branch stops at
    that entry, takes its empty key for no name, and every call makes a
    new unnamed entry. *)
Lemma ensure_colormap_vispy_empty_name :
  map returned_name
      (snd (run_calls sample_ensure
              [PyTuple [PyStr ""; PyVispy sample_vispy];
               PyVispy sample_vispy; PyVispy sample_vispy]
              sample_registry))
  = [Some ""; Some "[unnamed colormap 0]"; Some "[unnamed colormap 1]"]%string.
Proof. vm_compute. reflexivity. Qed.

(** The same calls when [==] never holds between the two classes: no
    entry is ever found, and every call makes a new unnamed entry. *)
Example ensure_colormap_vispy_never_equal :
  map returned_name
      (snd (run_calls (ensure_colormap sample_get_colormaps sample_cm
                         sample_Colormap_kwargs (fun _ _ => false))
              [PyTuple [PyStr ""; PyVispy sample_vispy];
               PyVispy sample_vispy; PyVispy sample_vispy]
              sample_registry))
  = [Some ""; Some "[unnamed colormap 0]"; Some "[unnamed colormap 1]"]%string.
Proof. vm_compute. reflexivity. Qed.

(** Without the entry under the empty name the second call finds the
    entry of the first. *)
Example ensure_colormap_vispy_twice :
  map returned_name
      (snd (run_calls sample_ensure [PyVispy sample_vispy; PyVispy sample_vispy]
              sample_registry))
  = [Some "[unnamed colormap 0]"; Some "[unnamed colormap 0]"]%string.
Proof. vm_compute. reflexivity. Qed.





Lemma color_random_unbounded_witness :
  _color_random sample_lab2rgb sample_luv2rgb 10 1 "lab" (-1) (SeedFloat 0.5) = None.
Proof.
  refine (proj2 (proj2 (color_random_unbounded sample_lab2rgb sample_luv2rgb
                          1 "lab" (-1) (SeedFloat 0.5) _ _)) _ 10%nat).
  - lia.
  - reflexivity.
  - vm_compute. discriminate.
Defined.

(** C2 (as stated) fails: with tolerance -1 the call for one colour has
    not returned, and has raised nothing, after any number of passes. *)
Lemma color_random_never_returns :
  ~ exists (fuel : nat) (r : result array),
      _color_random sample_lab2rgb sample_luv2rgb fuel 1 "rgb" (-1) (SeedFloat 0.5)
      = Some r.
Proof.
  intros [fuel [r H]]. unfold _color_random in H.
  rewrite color_random_loop_diverges in H; [discriminate | lia | reflexivity |].
  vm_compute. discriminate.
Qed.




(** * Further properties *)

(** ** _validate_rgb *)

Lemma np_clip01_near (tolerance c0 : Q) :
  0 - tolerance < c0 -> c0 < 1 + tolerance -> 0 < tolerance ->
  - tolerance < np_clip01 c0 - c0 /\ np_clip01 c0 - c0 < tolerance.
Proof.
  intros Hlo Hhi Htol. unfold np_clip01.
  destruct (Q.min_spec (Qmax c0 0) 1) as [[H0 E] | [H0 E]];
    destruct (Q.max_spec c0 0) as [[H1 E'] | [H1 E']];
    split; lra.
Qed.

Lemma filter_length_mono {A : Type} (p q : A -> bool) (l : list A) :
  (forall a, p a = true -> q a = true) ->
  (length (filter p l) <= length (filter q l))%nat.
Proof.
  intros H. induction l as [| a l IH]; simpl; [lia |].
  destruct (p a) eqn:E.
  - rewrite (H a E). simpl. lia.
  - destruct (q a); simpl; lia.
Qed.

(** The rows [_validate_rgb] returns are no more than the rows it is
    given; every channel returned lies in [0, 1]; and with a positive
    tolerance every returned row is an input row with each channel moved
    by less than the tolerance. *)
Theorem validate_rgb_subset :
  forall (colors : array) (tolerance : Q),
    (length (_validate_rgb colors tolerance) <= length colors)%nat /\
    Forall (fun r : row => Forall (fun c => 0 <= c /\ c <= 1) r)
           (_validate_rgb colors tolerance) /\
    (0 < tolerance ->
     Forall (fun r : row =>
               exists r0 : row,
                 In r0 colors /\
                 Forall2 (fun c c0 => - tolerance < c - c0 /\ c - c0 < tolerance) r r0)
            (_validate_rgb colors tolerance)).
Proof.
  intros colors tolerance. unfold _validate_rgb. split; [| split].
  - rewrite length_map. apply List.filter_length_le.
  - apply Forall_forall. intros r Hr. apply in_map_iff in Hr.
    destruct Hr as [r0 [<- _]]. apply Forall_forall. intros c Hc.
    apply in_map_iff in Hc. destruct Hc as [c0 [<- _]]. apply np_clip01_range.
  - intros Htol. apply Forall_forall. intros r Hr. apply in_map_iff in Hr.
    destruct Hr as [r0 [<- Hr0]]. apply filter_In in Hr0.
    destruct Hr0 as [Hin Hvalid]. exists r0. split; [exact Hin |].
    rewrite forallb_forall in Hvalid. clear Hin.
    induction r0 as [| c0 r0 IH]; simpl; constructor.
    + specialize (Hvalid c0 (or_introl eq_refl)).
      apply valid_channel in Hvalid. now apply np_clip01_near.
    + apply IH. intros c Hc. apply Hvalid. now right.
Qed.

Lemma validate_rgb_subset_witness :
  Forall (fun r : row =>
            exists r0 : row,
              In r0 [[0; 1; 1]; [1.1; 0; -0.03]; [1.2; 1; 0.5]] /\
              Forall2 (fun c c0 => - 0.15 < c - c0 /\ c - c0 < 0.15) r r0)
         (_validate_rgb [[0; 1; 1]; [1.1; 0; -0.03]; [1.2; 1; 0.5]] 0.15).
Proof.
  refine (proj2 (proj2 (validate_rgb_subset
                          [[0; 1; 1]; [1.1; 0; -0.03]; [1.2; 1; 0.5]] 0.15)) _).
  reflexivity.
Defined.

Lemma validated_rows_valid (colors : array) (tolerance : Q) :
  Forall (fun r : row =>
            forallb (fun c => Qltb (0 - tolerance) c && Qltb c (1 + tolerance)) r = true
            /\ map np_clip01 r = r)
         (_validate_rgb colors tolerance).
Proof.
  unfold _validate_rgb. apply Forall_forall. intros r Hr.
  apply in_map_iff in Hr. destruct Hr as [r0 [<- Hr0]].
  apply filter_In in Hr0. destruct Hr0 as [_ Hvalid].
  rewrite forallb_forall in Hvalid. split.
  - apply forallb_forall. intros c Hc. apply in_map_iff in Hc.
    destruct Hc as [c0 [<- Hc0]]. specialize (Hvalid c0 Hc0).
    apply valid_channel in Hvalid. apply valid_channel.
    destruct (np_clip01_range c0) as [H0 H1]. unfold np_clip01 in *.
    destruct (Q.min_spec (Qmax c0 0) 1) as [[Ha E] | [Ha E]];
      destruct (Q.max_spec c0 0) as [[Hb E'] | [Hb E']];
      split; lra.
  - rewrite map_map. apply map_ext. intros c.
    apply np_clip01_fixed; apply np_clip01_range.
Qed.

(** Validating twice is validating once: what [_validate_rgb] returns it
    returns unchanged when called again with the same tolerance. *)
Theorem validate_rgb_idempotent :
  forall (colors : array) (tolerance : Q),
    _validate_rgb (_validate_rgb colors tolerance) tolerance
    = _validate_rgb colors tolerance.
Proof.
  intros colors tolerance.
  pose proof (validated_rows_valid colors tolerance) as H.
  set (out := _validate_rgb colors tolerance) in *.
  unfold _validate_rgb at 1.
  rewrite filter_all.
  - rewrite <- (map_id out) at 2. apply map_ext_in. intros r Hr.
    rewrite Forall_forall in H. now apply H.
  - apply Forall_forall. intros r Hr. rewrite Forall_forall in H. now apply H.
Qed.

(** A larger tolerance keeps at least as many rows. *)
Theorem validate_rgb_monotone :
  forall (colors : array) (t1 t2 : Q),
    t1 <= t2 ->
    (length (_validate_rgb colors t1) <= length (_validate_rgb colors t2))%nat.
Proof.
  intros colors t1 t2 Hle. rewrite !validate_rgb_length.
  apply filter_length_mono. intros r Hr.
  rewrite forallb_forall in *. intros c Hc. specialize (Hr c Hc).
  apply valid_channel in Hr. apply valid_channel. lra.
Qed.

Lemma validate_rgb_monotone_witness :
  Nat.le (length (_validate_rgb [[0; 1; 1]; [1.1; 0; -0.03]; [1.2; 1; 0.5]] 0))
         (length (_validate_rgb [[0; 1; 1]; [1.1; 0; -0.03]; [1.2; 1; 0.5]] 0.15)).
Proof.
  apply (validate_rgb_monotone [[0; 1; 1]; [1.1; 0; -0.03]; [1.2; 1; 0.5]] 0 0.15).
  vm_compute. discriminate.
Defined.



(** The two calls of the docstring of [_validate_rgb]. *)
Example validate_rgb_docstring :
  _validate_rgb [[0; 1; 1]; [1.1; 0; -0.03]; [1.2; 1; 0.5]] 0.0 = [] /\
  map (map Qred) (_validate_rgb [[0; 1; 1]; [1.1; 0; -0.03]; [1.2; 1; 0.5]] 0.15)
  = [[0; 1; 1]; [1; 0; 0]].
Proof. split; vm_compute; reflexivity. Qed.

(** ** _low_discrepancy *)

Lemma map2_length_min {A B C : Type} (f : A -> B -> C) (l : list A) (m : list B) :
  length (map2 f l m) = Nat.min (length l) (length m).
Proof.
  revert m. induction l as [| a l IH]; intros [| b m]; simpl; auto.
Qed.

Lemma map2_In {A B C : Type} (f : A -> B -> C) (l : list A) (m : list B) (c : C) :
  In c (map2 f l m) -> exists a b, In a l /\ In b m /\ c = f a b.
Proof.
  revert m. induction l as [| a l IH]; intros [| b m]; simpl; try contradiction.
  intros [<- | H].
  - exists a, b. auto.
  - destruct (IH m H) as [a' [b' [Ha [Hb E]]]]. exists a', b'. auto.
Qed.

Lemma broadcast_to_fits (dim : nat) (seed : seed_arg) :
  seed_fits dim seed = true ->
  exists r, broadcast_to seed dim = Ret r /\ length r = dim.
Proof.
  destruct seed as [s | v]; simpl; intros H.
  - eexists. split; [reflexivity | apply repeat_length].
  - destruct (Nat.eqb_spec (length v) dim) as [E | E].
    + eexists. split; [reflexivity | exact E].
    + simpl in H. apply Nat.eqb_eq in H.
      destruct v as [| s [| s' v]]; try discriminate H.
      eexists. split; [reflexivity | apply repeat_length].
Qed.

Lemma broadcast_to_misfit (dim : nat) (seed : seed_arg) :
  seed_fits dim seed = false -> broadcast_to seed dim = Raise ValueError_broadcast.
Proof.
  destruct seed as [s | v]; simpl; intros H; [discriminate |].
  apply orb_false_iff in H. destruct H as [H1 H2]. rewrite H1.
  destruct v as [| s [| s' v]]; try reflexivity. discriminate H2.
Qed.

Lemma low_discrepancy_points :
  forall (dim : nat) (n : Z) (seed : seed_arg),
    (dim <= 3)%nat -> seed_fits dim seed = true ->
    exists pts : array,
      _low_discrepancy dim n seed = Ret pts /\
      length pts = Z.to_nat n /\
      Forall (fun r : row => length r = dim /\ Forall (fun c => 0 <= c /\ c <= 1) r) pts.
Proof.
  intros dim n seed Hdim Hseed.
  destruct (broadcast_to_fits dim seed Hseed) as [s [Hs Hlen]].
  unfold _low_discrepancy. rewrite Hs. cbn [rbind].
  destruct (Nat.ltb_spec 3 dim); [lia |].
  eexists. split; [reflexivity |]. split.
  - unfold arange. now rewrite !length_map, length_seq.
  - apply Forall_forall. intros r Hr. apply in_map_iff in Hr.
    destruct Hr as [i [<- _]]. split.
    + rewrite map2_length_min, length_firstn, Hlen. cbn [map length]. lia.
    + apply Forall_forall. intros c Hc. apply map2_In in Hc.
      destruct Hc as [a [b [_ [_ ->]]]]. apply np_mod1_unit.
Qed.

(** For at most three dimensions and a seed that fits them,
    [_low_discrepancy] returns [n] points (none when [n <= 0]) of [dim]
    coordinates each, every coordinate in [0, 1]. *)
Theorem low_discrepancy_shape :
  forall (dim : nat) (n : Z) (seed : seed_arg),
    (dim <= 3)%nat -> seed_fits dim seed = true ->
    exists pts : array,
      _low_discrepancy dim n seed = Ret pts /\
      length pts = Z.to_nat n /\
      Forall (fun r : row => length r = dim /\ Forall (fun c => 0 <= c /\ c <= 1) r) pts.
Proof. exact low_discrepancy_points. Qed.

Lemma low_discrepancy_shape_witness :
  exists pts : array,
    _low_discrepancy 2 5 (SeedArray [0.5; 0.25]) = Ret pts /\
    length pts = Z.to_nat 5 /\
    Forall (fun r : row => length r = 2%nat /\ Forall (fun c => 0 <= c /\ c <= 1) r) pts.
Proof.
  apply (low_discrepancy_shape 2 5 (SeedArray [0.5; 0.25])); [lia | reflexivity].
Defined.

(** The upper end is reached: the remainder of a seed just below zero
    rounds to 1. *)
Example low_discrepancy_reaches_one :
  match _low_discrepancy 1 1 (SeedFloat (- (1 # 2 ^ 60))) with
  | Ret pts => map (map Qred) pts = [[1]]
  | Raise _ => False
  end.
Proof. vm_compute. reflexivity. Qed.

(** With more than three dimensions, or a seed array whose length is
    neither [dim] nor 1, [_low_discrepancy] raises the [ValueError] of
    numpy's broadcasting. *)
Theorem low_discrepancy_error :
  forall (dim : nat) (n : Z) (seed : seed_arg),
    (3 < dim)%nat \/ seed_fits dim seed = false ->
    _low_discrepancy dim n seed = Raise ValueError_broadcast.
Proof.
  intros dim n seed H. unfold _low_discrepancy.
  destruct (seed_fits dim seed) eqn:Hseed.
  - destruct H as [H | H]; [| discriminate].
    destruct (broadcast_to_fits dim seed Hseed) as [s [Hs _]].
    rewrite Hs. cbn [rbind].
    destruct (Nat.ltb_spec 3 dim); [reflexivity | lia].
  - now rewrite broadcast_to_misfit.
Qed.

Lemma low_discrepancy_error_witness :
  _low_discrepancy 3 4 (SeedArray [0.5; 0.25]) = Raise ValueError_broadcast.
Proof.
  apply (low_discrepancy_error 3 4 (SeedArray [0.5; 0.25])). right. reflexivity.
Defined.

Lemma arange_prefix (n n' : Z) :
  (n <= n')%Z -> exists rest, arange n' = arange n ++ rest.
Proof.
  intros H. unfold arange.
  replace (Z.to_nat n') with (Z.to_nat n + (Z.to_nat n' - Z.to_nat n))%nat by lia.
  rewrite seq_app, map_app. eauto.
Qed.

Lemma low_discrepancy_firstn :
  forall (dim : nat) (n n' : Z) (seed : seed_arg) (pts' : array),
    (n <= n')%Z ->
    _low_discrepancy dim n' seed = Ret pts' ->
    _low_discrepancy dim n seed = Ret (firstn (Z.to_nat n) pts').
Proof.
  intros dim n n' seed pts' Hle. unfold _low_discrepancy.
  destruct (broadcast_to seed dim) as [s | e]; cbn [rbind]; [| discriminate].
  destruct (3 <? dim)%nat; [discriminate |].
  intros H. injection H as <-. f_equal.
  destruct (arange_prefix n n' Hle) as [rest E].
  rewrite E, map_app.
  set (f := fun i : Z => map2 _ s _).
  rewrite firstn_app.
  replace (Z.to_nat n) with (length (map f (arange n))) at 1 2
    by (unfold arange; now rewrite !length_map, length_seq).
  now rewrite firstn_all, Nat.sub_diag, firstn_0, app_nil_r.
Qed.

(** The sequence does not depend on how many points are asked for: the
    points returned for [n] are the first points returned for any larger
    count. *)
Theorem low_discrepancy_prefix :
  forall (dim : nat) (n n' : Z) (seed : seed_arg) (pts' : array),
    (n <= n')%Z ->
    _low_discrepancy dim n' seed = Ret pts' ->
    _low_discrepancy dim n seed = Ret (firstn (Z.to_nat n) pts').
Proof. exact low_discrepancy_firstn. Qed.

Lemma low_discrepancy_prefix_witness :
  _low_discrepancy 3 2 (SeedFloat 0.5)
  = Ret (firstn (Z.to_nat 2)
           (match _low_discrepancy 3 4 (SeedFloat 0.5) with
            | Ret pts => pts
            | Raise _ => []
            end)).
Proof.
  apply (low_discrepancy_prefix 3 2 4 (SeedFloat 0.5)); [lia |].
  vm_compute. reflexivity.
Defined.

(** ** _color_random *)

Lemma validate_rgb_app (a b : array) (tolerance : Q) :
  _validate_rgb (a ++ b) tolerance
  = _validate_rgb a tolerance ++ _validate_rgb b tolerance.
Proof. unfold _validate_rgb. now rewrite filter_app, map_app. Qed.

Lemma firstn_prefix {A : Type} (k : nat) (a rest : list A) :
  (k <= length a)%nat -> firstn k (a ++ rest) = firstn k a.
Proof.
  intros H. rewrite firstn_app.
  replace (k - length a)%nat with 0%nat by lia.
  now rewrite firstn_0, app_nil_r.
Qed.

Section SamplerExtras.

Variable lab2rgb : Q * Q * Q -> Q * Q * Q.
Variable luv2rgb : Q * Q * Q -> Q * Q * Q.

Local Abbreviation pass := (color_pass lab2rgb luv2rgb).
Local Abbreviation loop := (_color_random_loop lab2rgb luv2rgb).
Local Abbreviation color_random := (_color_random lab2rgb luv2rgb).

(** A pass over more candidates keeps what a pass over fewer kept, and
    possibly more after it. *)
Lemma color_pass_prefix (n n' : Z) (colorspace : string) (tolerance : Q)
    (seed : seed_arg) (factor factor' : Z) (kept kept' : array) :
  (n * factor <= n' * factor')%Z ->
  pass n colorspace tolerance seed factor = Ret kept ->
  pass n' colorspace tolerance seed factor' = Ret kept' ->
  exists rest, kept' = kept ++ rest.
Proof.
  intros Hle Ha Hb. unfold color_pass in *.
  destruct (_low_discrepancy 3 (n' * factor') seed) as [pts' |] eqn:E';
    cbn [rbind] in Hb; [| discriminate Hb].
  rewrite (low_discrepancy_firstn 3 _ _ seed pts' Hle E') in Ha.
  cbn [rbind] in Ha. injection Ha as <-. injection Hb as <-.
  pose proof (firstn_skipn (Z.to_nat (n * factor)) pts') as Hs.
  set (a := firstn (Z.to_nat (n * factor)) pts') in *.
  set (r := skipn (Z.to_nat (n * factor)) pts') in *.
  clearbody a r. subst pts'.
  destruct (String.eqb colorspace "luv"); [| destruct (String.eqb colorspace "rgb")];
    unfold colorconv_rows, scale_rows;
    rewrite ?map_app, validate_rgb_app; eauto.
Qed.

(** What the loop returns: the first [n] of the colours it entered with,
    or the first [n] of the colours a later pass kept. *)
Lemma loop_result (fuel : nat) (n : Z) (colorspace : string)
    (tolerance : Q) (seed : seed_arg) :
  forall (factor : Z) (rgb0 rgb : array),
    loop fuel n colorspace tolerance seed factor rgb0 = Some (Ret rgb) ->
    ((n <= Z.of_nat (length rgb0))%Z /\ rgb = firstn (Z.to_nat n) rgb0) \/
    exists j kept,
      pass n colorspace tolerance seed (factor * 2 ^ Z.of_nat j) = Ret kept /\
      (n <= Z.of_nat (length kept))%Z /\ rgb = firstn (Z.to_nat n) kept.
Proof.
  induction fuel as [| fuel IH]; intros factor rgb0 rgb H;
    rewrite loop_unfold in H;
    destruct (Z.ltb_spec (Z.of_nat (length rgb0)) n);
    try (left; split; [lia | congruence]); try discriminate H.
  right.
  destruct (pass n colorspace tolerance seed factor) as [rgb' |] eqn:E;
    [| discriminate H].
  destruct (IH _ _ _ H) as [[Hlen Hrgb] | [j [kept [Hpass [Hlen Hrgb]]]]].
  - exists 0%nat, rgb'. split; [| split; assumption].
    change (2 ^ Z.of_nat 0)%Z with 1%Z. now rewrite Z.mul_1_r.
  - exists (S j), kept. split; [| split; assumption].
    rewrite <- Hpass. f_equal.
    rewrite Nat2Z.inj_succ, Z.pow_succ_r by lia. ring.
Qed.

(** Asking for more colours keeps the colours of a smaller request: the
    [n] colours returned for [n] are the first [n] of the colours returned
    for any [n' >= n] (same colour space, tolerance and seed). *)
Theorem color_random_prefix :
  forall (fuel fuel' : nat) (n n' : Z) (colorspace : string) (tolerance : Q)
         (seed : seed_arg) (rgb rgb' : array),
    (n <= n')%Z ->
    color_random fuel n colorspace tolerance seed = Some (Ret rgb) ->
    color_random fuel' n' colorspace tolerance seed = Some (Ret rgb') ->
    rgb = firstn (Z.to_nat n) rgb'.
Proof.
  intros fuel fuel' n n' colorspace tolerance seed rgb rgb' Hle H H'.
  unfold _color_random in *.
  apply loop_result in H. apply loop_result in H'.
  destruct (Z.le_gt_cases n 0) as [Hn | Hn].
  { replace (Z.to_nat n) with 0%nat in * by lia.
    destruct H as [[_ ->] | [j [kept [_ [_ ->]]]]]; now rewrite !firstn_0. }
  destruct H as [[Hlen ->] | [j [kept [Hpass [Hlen ->]]]]];
    [cbn [length] in Hlen; lia |].
  - destruct H' as [[Hlen' ->] | [j' [kept' [Hpass' [Hlen' ->]]]]];
      [cbn [length] in Hlen'; lia |].
    rewrite firstn_firstn.
    replace (Nat.min (Z.to_nat n) (Z.to_nat n')) with (Z.to_nat n) by lia.
    destruct (Z.le_ge_cases (n * (6 * 2 ^ Z.of_nat j)) (n' * (6 * 2 ^ Z.of_nat j')))
      as [Hc | Hc].
    + destruct (color_pass_prefix _ _ _ _ _ _ _ _ _ Hc Hpass Hpass') as [rest ->].
      symmetry. apply firstn_prefix. lia.
    + destruct (color_pass_prefix _ _ _ _ _ _ _ _ _ Hc Hpass' Hpass) as [rest ->].
      apply firstn_prefix. lia.
Qed.

End SamplerExtras.

Lemma color_random_prefix_witness :
  match _color_random sample_lab2rgb sample_luv2rgb 1 2 "rgb" 0 (SeedFloat 0.5),
        _color_random sample_lab2rgb sample_luv2rgb 1 4 "rgb" 0 (SeedFloat 0.5) with
  | Some (Ret rgb), Some (Ret rgb') => rgb = firstn (Z.to_nat 2) rgb'
  | _, _ => False
  end.
Proof.
  destruct (_color_random sample_lab2rgb sample_luv2rgb 1 2 "rgb" 0 (SeedFloat 0.5))
    as [[rgb | e] |] eqn:E; try (vm_compute in E; discriminate E).
  destruct (_color_random sample_lab2rgb sample_luv2rgb 1 4 "rgb" 0 (SeedFloat 0.5))
    as [[rgb' | e'] |] eqn:E'; try (vm_compute in E'; discriminate E').
  apply (color_random_prefix sample_lab2rgb sample_luv2rgb 1 1 2 4 "rgb" 0
           (SeedFloat 0.5) rgb rgb'); [lia | exact E | exact E'].
Defined.

(** ** label_colormap *)

Lemma linspace_closed_form (start stop : Q) (num : Z) :
  (2 <= num)%Z ->
  linspace start stop num
  = Ret (map (fun i : Z => inject_Z i * ((stop - start) / inject_Z (num - 1)) + start)
             (arange (num - 1)) ++ [stop]).
Proof.
  intros Hnum. unfold linspace.
  destruct (Z.ltb_spec num 0); [lia |].
  destruct (Z.ltb_spec 1 num); [| lia].
  destruct (Z.ltb_spec 0 (num - 1)); [| lia].
  cbv iota.
  replace (arange num) with (arange (num - 1) ++ [(num - 1)%Z]).
  - rewrite map_app. cbn [map]. now rewrite removelast_last.
  - rewrite <- arange_succ by lia. f_equal. lia.
Qed.

Section LabelColormapExtras.

Variable lab2rgb : Q * Q * Q -> Q * Q * Q.
Variable luv2rgb : Q * Q * Q -> Q * Q * Q.

Local Abbreviation color_random := (_color_random lab2rgb luv2rgb).
Local Abbreviation label := (label_colormap lab2rgb luv2rgb).

(** The steps of a call that returns. *)
Lemma label_colormap_inv (fuel : nat) (num_colors : Z) (seed : seed_arg)
    (cmap : Colormap) :
  label fuel num_colors seed = Some (Ret cmap) ->
  exists (mid : list Q) (rgb colors0 colors : array),
    linspace 0.00001 (1 - 0.00001) (num_colors - 1) = Ret mid /\
    color_random fuel num_colors "lab" 0.0 seed = Some (Ret rgb) /\
    concatenate_axis1 rgb (np_full_column num_colors 1) = Ret colors0 /\
    set_row0 colors0 0 = Ret colors /\
    cmap = Colormap_init colors (Some "label_colormap"%string)
             (Some ([0] ++ mid ++ [1.0])) (Some "zero"%string).
Proof.
  unfold label_colormap.
  destruct (linspace 0.00001 (1 - 0.00001) (num_colors - 1)) as [mid | e] eqn:E1;
    [| discriminate].
  destruct (color_random fuel num_colors "lab" 0.0 seed) as [[rgb | e] |] eqn:E2;
    try discriminate.
  destruct (concatenate_axis1 rgb (np_full_column num_colors 1))
    as [colors0 | e] eqn:E3; cbn [rbind]; [| discriminate].
  destruct (set_row0 colors0 0) as [colors | e] eqn:E4; cbn [rbind];
    [| discriminate].
  intros H. injection H as <-. exists mid, rgb, colors0, colors.
  repeat split; assumption.
Qed.

(** Without colours to build there is no colormap: for [num_colors <= 0]
    the call raises the [ValueError] of [np.linspace] (a negative number
    of midpoints) before it samples any colour. *)
Theorem label_colormap_no_colors :
  forall (fuel : nat) (num_colors : Z) (seed : seed_arg),
    (num_colors <= 0)%Z ->
    label fuel num_colors seed = Some (Raise ValueError_linspace).
Proof.
  intros fuel num_colors seed H. unfold label_colormap, linspace.
  destruct (Z.ltb_spec (num_colors - 1) 0); [reflexivity | lia].
Qed.

(** The colours of the label colormap are the colours of the sampler with
    an alpha of 1, except the first, which is replaced by the transparent
    (0, 0, 0, 0): the first sampled colour is not used. *)
Theorem label_colormap_colors :
  forall (fuel : nat) (num_colors : Z) (seed : seed_arg) (cmap : Colormap),
    (1 <= num_colors)%Z -> seed_shape_ok seed = true ->
    label fuel num_colors seed = Some (Ret cmap) ->
    exists rgb : array,
      color_random fuel num_colors "lab" 0.0 seed = Some (Ret rgb) /\
      Colormap.colors cmap = [0; 0; 0; 0] :: map (fun r => r ++ [1]) (tl rgb) /\
      Forall (fun r : row =>
                exists x y z, r = [x; y; z; 1] /\
                              0 <= x <= 1 /\ 0 <= y <= 1 /\ 0 <= z <= 1)
             (tl (Colormap.colors cmap)).
Proof.
  intros fuel num_colors seed cmap Hn Hseed H.
  destruct (label_colormap_inv _ _ _ _ H)
    as [mid [rgb [colors0 [colors [_ [Hrgb [Hcat [Hrow ->]]]]]]]].
  exists rgb. split; [exact Hrgb |].
  pose proof Hrgb as Hshape. unfold _color_random in Hshape.
  apply loop_result_triples in Hshape; [| lia | exact Hseed | constructor].
  destruct Hshape as [Hlen Ht].
  unfold concatenate_axis1 in Hcat.
  destruct (length rgb =? length (np_full_column num_colors 1))%nat;
    [| discriminate Hcat].
  injection Hcat as <-.
  destruct rgb as [| r0 rgb]; [cbn [length] in Hlen; lia |].
  assert (Hfull : np_full_column num_colors 1 = [1] :: repeat [1] (length rgb)).
  { unfold np_full_column. cbn [length] in Hlen.
    replace (Z.to_nat num_colors) with (S (length rgb)) by lia. reflexivity. }
  rewrite Hfull in Hrow. cbn [map2 set_row0] in Hrow. injection Hrow as <-.
  assert (Hr0 : length r0 = 3%nat) by (inversion Ht; tauto).
  destruct r0 as [| x [| y [| z [| w r0]]]]; try discriminate Hr0.
  assert (Htail : map2 (@app Q) rgb (repeat [1] (length rgb))
                  = map (fun r => r ++ [1]) rgb).
  { clear. induction rgb as [| r rgb IH]; simpl; [reflexivity | now rewrite IH]. }
  cbn [Colormap.colors Colormap_init tl map app]. rewrite Htail. split; [reflexivity |].
  inversion Ht as [| ? ? _ Ht']; subst.
  apply Forall_forall. intros r Hr. apply in_map_iff in Hr.
  destruct Hr as [r1 [<- Hr1]]. unfold rgb_triples in Ht'.
  rewrite Forall_forall in Ht'. destruct (Ht' r1 Hr1) as [Hlen1 Hunit].
  destruct r1 as [| a [| b [| c [| d r1]]]]; try discriminate Hlen1.
  exists a, b, c. split; [reflexivity |].
  inversion Hunit as [| ? ? Ha Hunit1]; subst.
  inversion Hunit1 as [| ? ? Hb Hunit2]; subst.
  inversion Hunit2 as [| ? ? Hc _]; subst. tauto.
Qed.

(** The controls of the label colormap in closed form: 0, then
    [num_colors - 1] midpoints, then 1. The first midpoint is 0.00001, so
    the transparent colour covers [0, 0.00001) only; from three colours on
    the midpoints are evenly spaced, the midpoint of index [i] being
    [0.00001 + i * 0.99998 / (num_colors - 2)], and the last is 0.99999. *)
Theorem label_colormap_controls :
  forall (fuel : nat) (num_colors : Z) (seed : seed_arg) (cmap : Colormap),
    (2 <= num_colors)%Z ->
    label fuel num_colors seed = Some (Ret cmap) ->
    exists mid : list Q,
      Colormap.controls cmap = 0 :: mid ++ [1.0] /\
      length mid = Z.to_nat (num_colors - 1) /\
      (exists first rest, mid = first :: rest /\ first == 0.00001) /\
      ((3 <= num_colors)%Z ->
       Forall2 Qeq mid
         (map (fun i : Z => 0.00001 + inject_Z i * (0.99998 / inject_Z (num_colors - 2)))
              (arange (num_colors - 1))) /\
       last mid 0 = 1 - 0.00001).
Proof.
  intros fuel num_colors seed cmap Hn H.
  destruct (label_colormap_inv _ _ _ _ H)
    as [mid [rgb [colors0 [colors [Hmid [_ [_ [_ ->]]]]]]]].
  exists mid. split; [reflexivity |].
  destruct (Z.eq_dec num_colors 2) as [-> | Hne].
  - cbn in Hmid. injection Hmid as <-.
    split; [reflexivity |]. split; [| lia].
    eexists. exists []. split; [reflexivity |]. reflexivity.
  - rewrite linspace_closed_form in Hmid by lia. injection Hmid as <-.
    replace (num_colors - 1 - 1)%Z with (num_colors - 2)%Z by lia.
    split; [| split].
    + rewrite length_app, length_map. unfold arange.
      rewrite length_map, length_seq. cbn [length]. lia.
    + unfold arange.
      replace (Z.to_nat (num_colors - 2)) with (S (Z.to_nat (num_colors - 3))) by lia.
      cbn [seq map app]. eexists. eexists. split; [reflexivity |].
      change (inject_Z (Z.of_nat 0)) with 0. ring.
    + intros _. split; [| apply last_last].
      replace (num_colors - 1)%Z with (num_colors - 2 + 1)%Z by lia.
      rewrite arange_succ, map_app by lia. cbn [map].
      apply Forall2_app.
      * clear. induction (arange (num_colors - 2)) as [| i l IH]; simpl;
          constructor; [| exact IH].
        setoid_replace (1 - 0.00001 - 0.00001) with 0.99998 by reflexivity. ring.
      * constructor; [| constructor].
        assert (Hd : ~ inject_Z (num_colors - 2) == 0).
        { intros E. unfold Qeq in E. simpl in E. lia. }
        field. exact Hd.
Qed.

End LabelColormapExtras.

(** ** color_dict_to_colormap *)

Lemma row_compare_antisym (r s : row) :
  row_compare s r = CompOpp (row_compare r s).
Proof.
  revert s. induction r as [| x r IH]; intros [| y s]; simpl; try reflexivity.
  rewrite <- (Qcompare_antisym x y). destruct (x ?= y); simpl; auto.
Qed.

Lemma row_lt_trans (r s t : row) : row_lt r s -> row_lt s t -> row_lt r t.
Proof.
  unfold row_lt. revert s t.
  induction r as [| x r IH]; intros [| y s] [| z t]; simpl;
    try discriminate; auto.
  destruct (x ?= y) eqn:Exy; try discriminate;
    destruct (y ?= z) eqn:Eyz; try discriminate; intros H1 H2.
  - rewrite <- Qeq_alt in Exy, Eyz.
    assert (E : (x ?= z) = Eq) by (rewrite <- Qeq_alt; lra).
    rewrite E. eauto.
  - rewrite <- Qeq_alt in Exy. rewrite <- Qlt_alt in Eyz.
    assert (E : (x ?= z) = Lt) by (rewrite <- Qlt_alt; lra).
    now rewrite E.
  - rewrite <- Qlt_alt in Exy. rewrite <- Qeq_alt in Eyz.
    assert (E : (x ?= z) = Lt) by (rewrite <- Qlt_alt; lra).
    now rewrite E.
  - rewrite <- Qlt_alt in Exy, Eyz.
    assert (E : (x ?= z) = Lt) by (rewrite <- Qlt_alt; lra).
    now rewrite E.
Qed.

Lemma row_lt_neq (r s : row) : row_lt r s -> ~ Forall2 Qeq r s.
Proof.
  unfold row_lt. intros H E. apply row_compare_eq_iff in E. congruence.
Qed.

Lemma insert_unique_In (r x : row) (l : array) :
  In x (insert_unique r l) -> x = r \/ In x l.
Proof.
  induction l as [| y l IH]; simpl.
  - intros [<- | []]. now left.
  - destruct (row_compare r y); simpl; intuition.
Qed.

Lemma In_insert_unique (r x : row) (l : array) :
  In x l -> In x (insert_unique r l).
Proof.
  induction l as [| y l IH]; simpl; [contradiction |].
  destruct (row_compare r y); simpl; intuition.
Qed.

Lemma insert_unique_has (r : row) (l : array) :
  exists x, In x (insert_unique r l) /\ Forall2 Qeq r x.
Proof.
  induction l as [| y l IH]; simpl.
  - exists r. split; [now left | apply row_compare_eq_iff].
    apply row_compare_eq_iff. clear. induction r; constructor; [reflexivity | assumption].
  - destruct (row_compare r y) eqn:E.
    + exists y. split; [now left | now apply row_compare_eq_iff].
    + exists r. split; [now left |].
      clear. induction r; constructor; [reflexivity | assumption].
    + destruct IH as [x [Hin Hx]]. exists x. split; [now right | exact Hx].
Qed.

Lemma np_unique_rows_In (a : array) (x : row) :
  In x (np_unique_rows a) -> In x a.
Proof.
  induction a as [| r a IH]; simpl; [tauto |].
  intros H. apply insert_unique_In in H. intuition.
Qed.

Lemma np_unique_rows_has (a : array) (r : row) :
  In r a -> exists x, In x (np_unique_rows a) /\ Forall2 Qeq r x.
Proof.
  induction a as [| r' a IH]; simpl; [contradiction |].
  intros [-> | H].
  - apply insert_unique_has.
  - destruct (IH H) as [x [Hin Hx]]. exists x.
    split; [now apply In_insert_unique | exact Hx].
Qed.

Lemma np_unique_rows_nonempty (a : array) : a <> [] -> np_unique_rows a <> [].
Proof.
  destruct a as [| r a]; [congruence |]. intros _ E.
  destruct (np_unique_rows_has (r :: a) r (or_introl eq_refl)) as [x [Hin _]].
  rewrite E in Hin. contradiction.
Qed.

Lemma insert_unique_sorted (r : row) (l : array) :
  StronglySorted row_lt l -> StronglySorted row_lt (insert_unique r l).
Proof.
  induction l as [| y l IH]; simpl; intros H.
  - repeat constructor.
  - inversion H as [| ? ? Hl Hy]; subst.
    destruct (row_compare r y) eqn:E.
    + exact H.
    + constructor; [exact H |]. constructor; [exact E |].
      eapply Forall_impl; [| exact Hy]. intros z Hz.
      now apply (row_lt_trans r y z).
    + constructor; [now apply IH |].
      apply Forall_forall. intros z Hz. apply insert_unique_In in Hz.
      destruct Hz as [-> | Hz].
      * unfold row_lt. rewrite row_compare_antisym, E. reflexivity.
      * rewrite Forall_forall in Hy. now apply Hy.
Qed.

Lemma np_unique_rows_sorted (a : array) : StronglySorted row_lt (np_unique_rows a).
Proof.
  induction a as [| r a IH]; simpl; [constructor | now apply insert_unique_sorted].
Qed.

Lemma StronglySorted_nth_lt (l : array) (i j : nat) :
  StronglySorted row_lt l -> (i < j < length l)%nat ->
  row_lt (nth i l []) (nth j l []).
Proof.
  intros H. revert i j. induction H as [| x l Hs IH Hx]; intros i j Hij.
  - simpl in Hij. lia.
  - destruct j as [| j]; [lia |]. destruct i as [| i]; simpl.
    + rewrite Forall_forall in Hx. apply Hx. apply nth_In. simpl in Hij. lia.
    + apply IH. simpl in Hij. lia.
Qed.

(** Equal rows of the result of [np.unique] are one row. *)
Lemma np_unique_rows_distinct (a : array) (i j : nat) :
  (i < length (np_unique_rows a))%nat -> (j < length (np_unique_rows a))%nat ->
  Forall2 Qeq (nth i (np_unique_rows a) []) (nth j (np_unique_rows a) []) ->
  i = j.
Proof.
  intros Hi Hj E.
  destruct (Nat.lt_trichotomy i j) as [H | [H | H]]; [| exact H |]; exfalso.
  - apply (row_lt_neq _ _ (StronglySorted_nth_lt _ i j (np_unique_rows_sorted a)
                             (conj H Hj))).
    exact E.
  - apply (row_lt_neq _ _ (StronglySorted_nth_lt _ j i (np_unique_rows_sorted a)
                             (conj H Hi))).
    now apply row_eq_sym.
Qed.

Lemma rmap_Forall2 {A B : Type} (f : A -> result B) (l : list A) (bs : list B) :
  rmap f l = Ret bs -> Forall2 (fun a b => f a = Ret b) l bs.
Proof.
  revert bs. induction l as [| a l IH]; simpl; intros bs H.
  - injection H as <-. constructor.
  - destruct (f a) as [b | e] eqn:E; simpl in H; [| discriminate].
    destruct (rmap f l) as [bs' | e]; simpl in H; [| discriminate].
    injection H as <-. constructor; [exact E | now apply IH].
Qed.

Lemma rmap_total {A B : Type} (f : A -> result B) (l : list A) :
  (forall a, In a l -> exists b, f a = Ret b) -> exists bs, rmap f l = Ret bs.
Proof.
  induction l as [| a l IH]; simpl; intros H; [eauto |].
  destruct (H a (or_introl eq_refl)) as [b ->].
  destruct IH as [bs ->]; [auto |]. simpl. eauto.
Qed.

(** The index table: with a divisor other than zero every control gets
    its position divided by it. *)
Lemma control2index_ok (d : Z) (l : list (Z * row)) :
  d <> 0%Z ->
  rmap (fun '(i, ctrl) => rbind (py_truediv i d) (fun idx => Ret (ctrl, idx))) l
  = Ret (map (fun '(i, ctrl) => (ctrl, inject_Z i / inject_Z d)) l).
Proof.
  intros Hd. induction l as [| [i ctrl] l IH]; simpl; [reflexivity |].
  unfold py_truediv at 1. destruct (Z.eqb_spec d 0); [contradiction |].
  simpl. now rewrite IH.
Qed.

Lemma lookup_row_enumerate (c : row) (d : Z) (cc : array) (k : nat) (idx : Q) :
  lookup_row c
    (map (fun '(i, ctrl) => (ctrl, inject_Z i / inject_Z d))
         (combine (map Z.of_nat (seq k (length cc))) cc)) = Ret idx ->
  exists i : nat,
    (i < length cc)%nat /\ Forall2 Qeq c (nth i cc []) /\
    idx = inject_Z (Z.of_nat (k + i)) / inject_Z d.
Proof.
  revert k. induction cc as [| x cc IH]; intros k; simpl; [discriminate |].
  destruct (row_eqb c x) eqn:E.
  - intros H. injection H as <-. exists 0%nat.
    split; [lia |]. split; [now apply row_eqb_true_iff |].
    now rewrite Nat.add_0_r.
  - intros H. destruct (IH (S k) H) as [i [Hi [Hc ->]]].
    exists (S i). split; [lia |]. split; [exact Hc |].
    now rewrite Nat.add_succ_r.
Qed.

Lemma lookup_row_found (c : row) (d : Z) (cc : array) (k : nat) :
  (exists x, In x cc /\ Forall2 Qeq c x) ->
  exists idx,
    lookup_row c
      (map (fun '(i, ctrl) => (ctrl, inject_Z i / inject_Z d))
           (combine (map Z.of_nat (seq k (length cc))) cc)) = Ret idx.
Proof.
  revert k. induction cc as [| x cc IH]; intros k [y [Hin Hy]]; simpl.
  - contradiction.
  - destruct (row_eqb c x) eqn:E; [eauto |].
    apply IH. exists y. split; [| exact Hy].
    destruct Hin as [<- | Hin]; [| exact Hin].
    apply row_eqb_true_iff in Hy. congruence.
Qed.

Lemma enumerate_combine {A : Type} (l : list A) :
  enumerate l = combine (map Z.of_nat (seq 0 (length l))) l.
Proof. unfold enumerate, arange. now rewrite Nat2Z.id. Qed.

Lemma two_elements {A : Type} (l : list A) (x y : A) :
  In x l -> In y l -> x <> y -> (2 <= length l)%nat.
Proof.
  destruct l as [| a [| b l]]; simpl; try lia; intuition congruence.
Qed.

Lemma position_in_unit (i n : nat) :
  (i < n)%nat -> (2 <= n)%nat ->
  0 <= inject_Z (Z.of_nat i) / inject_Z (Z.of_nat n - 1) <= 1.
Proof.
  intros Hi Hn.
  assert (Hd : 0 < inject_Z (Z.of_nat n - 1)).
  { change 0 with (inject_Z 0). rewrite <- Zlt_Qlt. lia. }
  split.
  - apply Qle_shift_div_l; [exact Hd |].
    setoid_replace (0 * inject_Z (Z.of_nat n - 1)) with (inject_Z 0) by ring.
    rewrite <- Zle_Qle. lia.
  - apply Qle_shift_div_r; [exact Hd |].
    setoid_replace (1 * inject_Z (Z.of_nat n - 1)) with (inject_Z (Z.of_nat n - 1)) by ring.
    rewrite <- Zle_Qle. lia.
Qed.

(** The steps of a call that returns: the controls are the distinct
    colours, and every label is paired with the position of its colour
    among them, divided by the number of controls less one. *)
Lemma color_dict_to_colormap_inv (colors : list (Z * row)) (cmap : Colormap)
    (index : list (Z * Q)) :
  color_dict_to_colormap colors = Ret (cmap, index) ->
  Colormap.colors cmap = np_unique_rows (map snd colors) /\
  (colors <> [] -> (2 <= length (Colormap.colors cmap))%nat) /\
  Forall2 (fun lc li =>
             fst li = fst lc /\
             exists i : nat,
               (i < length (Colormap.colors cmap))%nat /\
               Forall2 Qeq (snd lc) (nth i (Colormap.colors cmap) []) /\
               snd li = inject_Z (Z.of_nat i)
                        / inject_Z (Z.of_nat (length (Colormap.colors cmap)) - 1))
          colors index.
Proof.
  intros H.
  destruct colors as [| lc0 colors0].
  { vm_compute in H. injection H as <- <-.
    split; [reflexivity |]. split; [congruence | constructor]. }
  remember (lc0 :: colors0) as colors eqn:Ecolors.
  assert (Hcc : np_unique_rows (map snd colors) <> []).
  { apply np_unique_rows_nonempty. subst colors. discriminate. }
  unfold color_dict_to_colormap in H.
  remember (np_unique_rows (map snd colors)) as cc eqn:Ecc.
  destruct cc as [| c0 [| c1 cc']]; [congruence | |].
  { vm_compute in H. discriminate H. }
  remember (c0 :: c1 :: cc') as cc eqn:Ecc'.
  assert (Hlen : (2 <= length cc)%nat) by (subst cc; simpl; lia).
  rewrite control2index_ok in H by lia. cbn [rbind] in H.
  destruct (rmap _ colors) as [lci |] eqn:E; cbn [rbind] in H; [| discriminate].
  injection H as <- <-. cbn [Colormap.colors Colormap_init].
  split; [reflexivity |]. split; [intros _; exact Hlen |].
  apply rmap_Forall2 in E. eapply Forall2_impl; [| exact E].
  intros [label color] li Hli. cbn beta iota in Hli.
  rewrite enumerate_combine in Hli.
  destruct (lookup_row color _) as [idx |] eqn:Hl; cbn [rbind] in Hli;
    [| discriminate].
  injection Hli as <-. apply lookup_row_enumerate in Hl.
  destruct Hl as [i [Hi [Hc ->]]]. split; [reflexivity |].
  exists i. cbn [fst snd]. auto.
Qed.

(** A mapping that holds two colours which differ is accepted: the call
    returns a colormap and an index, whatever the labels and the other
    colours are. *)
Theorem color_dict_to_colormap_total :
  forall (colors : list (Z * row)) (l1 l2 : Z) (c1 c2 : row),
    In (l1, c1) colors -> In (l2, c2) colors -> ~ Forall2 Qeq c1 c2 ->
    exists cmap index, color_dict_to_colormap colors = Ret (cmap, index).
Proof.
  intros colors l1 l2 c1 c2 H1 H2 Hne. unfold color_dict_to_colormap.
  set (cc := np_unique_rows (map snd colors)).
  assert (Hhas : forall l c, In (l, c) colors ->
                             exists x, In x cc /\ Forall2 Qeq c x).
  { intros l c Hin. apply np_unique_rows_has.
    apply in_map_iff. exists (l, c). auto. }
  destruct (Hhas _ _ H1) as [x1 [Hx1 E1]].
  destruct (Hhas _ _ H2) as [x2 [Hx2 E2]].
  assert (Hlen : (2 <= length cc)%nat).
  { apply (two_elements cc x1 x2 Hx1 Hx2). intros ->. apply Hne.
    eapply row_eq_trans; [exact E1 | now apply row_eq_sym]. }
  rewrite control2index_ok by lia. cbn [rbind].
  destruct (rmap_total
              (fun '(label, color) =>
                 rbind (lookup_row color
                          (map (fun '(i, ctrl) =>
                                  (ctrl, inject_Z i / inject_Z (Z.of_nat (length cc) - 1)))
                               (enumerate cc)))
                       (fun idx => Ret (label, idx))) colors) as [lci E].
  - intros [l c] Hin. rewrite enumerate_combine.
    destruct (lookup_row_found c (Z.of_nat (length cc) - 1) cc 0 (Hhas l c Hin))
      as [idx ->].
    cbn [rbind]. eauto.
  - rewrite E. cbn [rbind]. eauto.
Qed.

Lemma color_dict_to_colormap_total_witness :
  exists cmap index,
    color_dict_to_colormap
      [(1%Z, [1; 0; 0; 1]); (2%Z, [0; 1; 0; 1]); (3%Z, [1; 0; 0; 1])]
    = Ret (cmap, index).
Proof.
  apply (color_dict_to_colormap_total _ 1 2 [1; 0; 0; 1] [0; 1; 0; 1]).
  - simpl. auto.
  - simpl. auto.
  - intros H. inversion H as [| ? ? ? ? E _]; subst. vm_compute in E. discriminate E.
Defined.

(** The index of a label is the control point of its colour: the result
    lists the labels in the order of the mapping, each with the position
    of its colour among the colours of the colormap divided by the number
    of colours less one, a value between 0 and 1. *)
Theorem color_dict_to_colormap_index :
  forall (colors : list (Z * row)) (cmap : Colormap) (index : list (Z * Q)),
    color_dict_to_colormap colors = Ret (cmap, index) ->
    Forall2 (fun lc li =>
               fst li = fst lc /\ 0 <= snd li <= 1 /\
               exists i : nat,
                 (i < length (Colormap.colors cmap))%nat /\
                 Forall2 Qeq (snd lc) (nth i (Colormap.colors cmap) []) /\
                 snd li == inject_Z (Z.of_nat i)
                           / inject_Z (Z.of_nat (length (Colormap.colors cmap)) - 1))
            colors index.
Proof.
  intros colors cmap index H.
  destruct (color_dict_to_colormap_inv _ _ _ H) as [_ [Hlen HF]].
  destruct colors as [| lc0 colors0]; [inversion HF; constructor |].
  assert (H2 : (2 <= length (Colormap.colors cmap))%nat) by (apply Hlen; discriminate).
  eapply Forall2_impl; [| exact HF].
  intros lc li [Hl [i [Hi [Hc Hx]]]]. split; [exact Hl |]. split.
  - rewrite Hx. now apply position_in_unit.
  - exists i. rewrite Hx. split; [exact Hi |]. split; [exact Hc | reflexivity].
Qed.

Lemma color_dict_to_colormap_index_witness :
  exists cmap index,
    color_dict_to_colormap sample_colors = Ret (cmap, index) /\
    Forall2 (fun lc li =>
               fst li = fst lc /\ 0 <= snd li <= 1 /\
               exists i : nat,
                 (i < length (Colormap.colors cmap))%nat /\
                 Forall2 Qeq (snd lc) (nth i (Colormap.colors cmap) []) /\
                 snd li == inject_Z (Z.of_nat i)
                           / inject_Z (Z.of_nat (length (Colormap.colors cmap)) - 1))
            sample_colors index.
Proof.
  eexists. eexists. split.
  - vm_compute. reflexivity.
  - apply color_dict_to_colormap_index. vm_compute. reflexivity.
Defined.

Lemma Forall2_nth_error {A B : Type} (R : A -> B -> Prop) (l : list A)
    (m : list B) (n : nat) (x : A) (y : B) :
  Forall2 R l m -> nth_error l n = Some x -> nth_error m n = Some y -> R x y.
Proof.
  intros H. revert n. induction H as [| a b l m Hab H IH]; intros [| n]; simpl;
    try discriminate.
  - intros Hx Hy. injection Hx as <-. injection Hy as <-. exact Hab.
  - apply IH.
Qed.

Lemma position_inj (i j : nat) (d : Z) :
  (0 < d)%Z ->
  inject_Z (Z.of_nat i) / inject_Z d == inject_Z (Z.of_nat j) / inject_Z d ->
  i = j.
Proof.
  intros Hd H.
  assert (Hq : ~ inject_Z d == 0).
  { intros E. unfold Qeq in E. simpl in E. lia. }
  assert (E : inject_Z (Z.of_nat i) == inject_Z (Z.of_nat j)).
  { setoid_replace (inject_Z (Z.of_nat i))
      with (inject_Z (Z.of_nat i) / inject_Z d * inject_Z d) by (field; exact Hq).
    rewrite H. field. exact Hq. }
  rewrite inject_Z_injective in E. lia.
Qed.

(** Two labels get the same index exactly when they have the same colour:
    the index tells the colours of the mapping apart. *)
Theorem color_dict_to_colormap_same_index :
  forall (colors : list (Z * row)) (cmap : Colormap) (index : list (Z * Q))
         (a b : nat) (la lb : Z) (ca cb : row) (ia ib : Z * Q),
    color_dict_to_colormap colors = Ret (cmap, index) ->
    nth_error colors a = Some (la, ca) -> nth_error colors b = Some (lb, cb) ->
    nth_error index a = Some ia -> nth_error index b = Some ib ->
    (snd ia == snd ib <-> Forall2 Qeq ca cb).
Proof.
  intros colors cmap index a b la lb ca cb ia ib H Ha Hb Hia Hib.
  destruct (color_dict_to_colormap_inv _ _ _ H) as [Hcc [Hlen HF]].
  assert (H2 : (2 <= length (Colormap.colors cmap))%nat).
  { apply Hlen. intros ->. destruct a; discriminate Ha. }
  destruct (Forall2_nth_error _ _ _ _ _ _ HF Ha Hia) as [_ [i [Hi [Hci Hxi]]]].
  destruct (Forall2_nth_error _ _ _ _ _ _ HF Hb Hib) as [_ [j [Hj [Hcj Hxj]]]].
  cbn [snd] in Hci, Hcj. rewrite Hxi, Hxj. split.
  - intros E. apply position_inj in E; [| lia]. subst j.
    eapply row_eq_trans; [exact Hci | now apply row_eq_sym].
  - intros E. rewrite Hcc in Hi, Hj, Hci, Hcj.
    assert (i = j) as ->; [| reflexivity].
    apply (np_unique_rows_distinct (map snd colors)); [exact Hi | exact Hj |].
    eapply row_eq_trans; [apply row_eq_sym; exact Hci |].
    eapply row_eq_trans; [exact E | exact Hcj].
Qed.

Lemma color_dict_to_colormap_same_index_witness :
  exists ia ib,
    nth_error (match color_dict_to_colormap sample_colors with
               | Ret (_, index) => index
               | Raise _ => []
               end) 0 = Some ia /\
    nth_error (match color_dict_to_colormap sample_colors with
               | Ret (_, index) => index
               | Raise _ => []
               end) 2 = Some ib /\
    (snd ia == snd ib <-> Forall2 Qeq [1; 0; 0; 1] [1; 0; 0; 1]).
Proof.
  eexists. eexists. split; [vm_compute; reflexivity |].
  split; [vm_compute; reflexivity |].
  eapply (color_dict_to_colormap_same_index sample_colors _ _ 0 2 1 3).
  - vm_compute. reflexivity.
  - reflexivity.
  - reflexivity.
  - reflexivity.
  - reflexivity.
Defined.

(** The colours of the colormap are the colours of the mapping, each
    once, in increasing lexicographic order: every colour of the colormap
    is the colour of a label, and every label's colour is among them. *)
Theorem color_dict_to_colormap_colors :
  forall (colors : list (Z * row)) (cmap : Colormap) (index : list (Z * Q)),
    color_dict_to_colormap colors = Ret (cmap, index) ->
    StronglySorted row_lt (Colormap.colors cmap) /\
    (forall x, In x (Colormap.colors cmap) -> exists l, In (l, x) colors) /\
    (forall l c, In (l, c) colors ->
                 exists x, In x (Colormap.colors cmap) /\ Forall2 Qeq c x).
Proof.
  intros colors cmap index H.
  destruct (color_dict_to_colormap_inv _ _ _ H) as [-> _].
  split; [apply np_unique_rows_sorted |]. split.
  - intros x Hx. apply np_unique_rows_In in Hx. apply in_map_iff in Hx.
    destruct Hx as [[l c] [<- Hin]]. now exists l.
  - intros l c Hin. apply np_unique_rows_has. apply in_map_iff.
    exists (l, c). auto.
Qed.

Lemma color_dict_to_colormap_colors_witness :
  exists cmap index,
    color_dict_to_colormap sample_colors = Ret (cmap, index) /\
    StronglySorted row_lt (Colormap.colors cmap) /\
    (forall x, In x (Colormap.colors cmap) -> exists l, In (l, x) sample_colors) /\
    (forall l c, In (l, c) sample_colors ->
                 exists x, In x (Colormap.colors cmap) /\ Forall2 Qeq c x).
Proof.
  eexists. eexists. split.
  - vm_compute. reflexivity.
  - eapply color_dict_to_colormap_colors. vm_compute. reflexivity.
Defined.

Lemma NoDup_map_injective {A B : Type} (f : A -> B) (l : list A) :
  (forall x y, f x = f y -> x = y) -> NoDup l -> NoDup (map f l).
Proof.
  intros Hf Hl. induction Hl as [| x l Hx Hl IH]; simpl; constructor; [| exact IH].
  intros Hin. apply in_map_iff in Hin. destruct Hin as [y [E Hy]].
  apply Hf in E. now subst y.
Qed.

(** ** increment_unnamed_colormap *)

Lemma successive_calls_names (k : nat) (existing : list string) :
  map snd (successive_calls k existing)
  = map unnamed_name
        (seq (length (filter (String.prefix "[unnamed colormap") existing)) k).
Proof.
  revert existing. induction k as [| k IH]; intros existing; [reflexivity |].
  cbn [successive_calls map seq snd]. rewrite IH, increment_unnamed_default.
  f_equal. rewrite filter_app, length_app. cbn [filter].
  rewrite unnamed_name_prefix. cbn [length]. now rewrite Nat.add_1_r.
Qed.

(** Successive calls number the unnamed colormaps consecutively: when
    every returned name is added to the existing names, [k] calls return
    the names with the indices [m], [m + 1], ..., [m + k - 1], where [m]
    is the number of existing names that carry the prefix; the returned
    names differ from one another. *)
Theorem increment_unnamed_colormap_numbering :
  forall (existing : list string) (k : nat),
    map snd (successive_calls k existing)
    = map unnamed_name
          (seq (length (filter (String.prefix "[unnamed colormap") existing)) k) /\
    NoDup (map snd (successive_calls k existing)).
Proof.
  intros existing k. split; [apply successive_calls_names |].
  rewrite successive_calls_names.
  apply NoDup_map_injective; [| apply seq_NoDup].
  intros i j. apply unnamed_name_inj.
Qed.

(** ** _all_rgb *)

Lemma cube_In {A : Type} (l : list A) (r g b : A) :
  In (r, g, b)
     (flat_map (fun r => flat_map (fun g => map (fun b => (r, g, b)) l) l) l)
  <-> In r l /\ In g l /\ In b l.
Proof.
  rewrite in_flat_map. split.
  - intros [r' [Hr H]]. apply in_flat_map in H. destruct H as [g' [Hg H]].
    apply in_map_iff in H. destruct H as [b' [E Hb]].
    injection E as -> -> ->. auto.
  - intros [Hr [Hg Hb]]. exists r. split; [exact Hr |].
    apply in_flat_map. exists g. split; [exact Hg |].
    apply in_map_iff. exists b. auto.
Qed.

Lemma NoDup_flat_map {A B : Type} (f : A -> list B) (l : list A) :
  NoDup l -> (forall x, In x l -> NoDup (f x)) ->
  (forall x y z, In z (f x) -> In z (f y) -> x = y) ->
  NoDup (flat_map f l).
Proof.
  intros Hl Hf Hinj. induction Hl as [| x l Hx Hl IH]; simpl; [constructor |].
  apply NoDup_app.
  - apply Hf. now left.
  - apply IH. intros y Hy. apply Hf. now right.
  - intros z Hz Hz'. apply in_flat_map in Hz'. destruct Hz' as [y [Hy Hz']].
    apply Hx. now rewrite (Hinj x y z Hz Hz').
Qed.

Lemma cube_NoDup {A : Type} (l : list A) :
  NoDup l ->
  NoDup (flat_map (fun r => flat_map (fun g => map (fun b => (r, g, b)) l) l) l).
Proof.
  intros Hl. apply NoDup_flat_map; [exact Hl | |].
  - intros r _. apply NoDup_flat_map; [exact Hl | |].
    + intros g _. apply NoDup_map_injective; [| exact Hl].
      intros b b' E. now injection E.
    + intros g g' z Hz Hz'. apply in_map_iff in Hz, Hz'.
      destruct Hz as [b [<- _]]. destruct Hz' as [b' [E _]]. now injection E.
  - intros r r' z Hz Hz'. apply in_flat_map in Hz, Hz'.
    destruct Hz as [g [_ Hz]]. destruct Hz' as [g' [_ Hz']].
    apply in_map_iff in Hz, Hz'.
    destruct Hz as [b [<- _]]. destruct Hz' as [b' [E _]]. now injection E.
Qed.

Lemma length_flat_map_const {A B : Type} (f : A -> list B) (l : list A) (m : nat) :
  (forall x, length (f x) = m) -> length (flat_map f l) = (length l * m)%nat.
Proof.
  intros H. induction l as [| x l IH]; simpl; [reflexivity |].
  now rewrite length_app, H, IH.
Qed.

Lemma arange_In (n x : Z) : In x (arange n) <-> (0 <= x < n)%Z.
Proof.
  unfold arange. rewrite in_map_iff. split.
  - intros [i [<- Hi]]. apply in_seq in Hi. lia.
  - intros H. exists (Z.to_nat x). split; [apply Z2Nat.id; lia |].
    apply in_seq. lia.
Qed.

Lemma arange_NoDup (n : Z) : NoDup (arange n).
Proof.
  unfold arange. apply NoDup_map_injective; [| apply seq_NoDup].
  intros i j. apply Nat2Z.inj.
Qed.

(** The table holds every triple of 8-bit channel values, each once: it
    has 256^3 rows without repetition, and a triple is a row exactly when
    its three channels are from 0 to 255. *)
Theorem all_rgb_complete :
  Z.of_nat (length _all_rgb) = (256 ^ 3)%Z /\
  NoDup _all_rgb /\
  (forall r g b : Z,
      In (r, g, b) _all_rgb
      <-> (0 <= r < 256)%Z /\ (0 <= g < 256)%Z /\ (0 <= b < 256)%Z).
Proof.
  unfold _all_rgb. cbv zeta. split; [| split].
  - rewrite (length_flat_map_const _ _ (length (arange 256) * length (arange 256))).
    + rewrite !Nat2Z.inj_mul, arange_length, Z2Nat.id by lia. reflexivity.
    + intros r. apply length_flat_map_const. intros g. apply length_map.
  - apply cube_NoDup, arange_NoDup.
  - intros r g b. rewrite cube_In, !arange_In. tauto.
Qed.

(** ** The registry *)

Lemma dict_get_set_other {V : Type} (d : pydict V) (k k' : string) (v : V) :
  k <> k' -> dict_get (dict_set d k' v) k = dict_get d k.
Proof.
  intros Hne. induction d as [| [k0 v0] d IH]; simpl.
  - destruct (String.eqb_spec k k'); [contradiction | reflexivity].
  - destruct (String.eqb_spec k' k0) as [-> | Hne']; simpl.
    + destruct (String.eqb_spec k k0); [contradiction | reflexivity].
    + destruct (String.eqb_spec k k0); [reflexivity | exact IH].
Qed.

Lemma dict_set_set {V : Type} (d : pydict V) (k : string) (v : V) :
  dict_set (dict_set d k v) k v = dict_set d k v.
Proof.
  induction d as [| [k0 v0] d IH]; simpl.
  - now rewrite String.eqb_refl.
  - destruct (String.eqb k k0) eqn:E; simpl; rewrite E; [reflexivity | now rewrite IH].
Qed.

Lemma dict_get_None {V : Type} (d : pydict V) (k : string) :
  dict_get d k = None <-> ~ In k (keys d).
Proof.
  rewrite <- dict_mem_In. unfold dict_mem.
  destruct (dict_get d k); split; congruence.
Qed.

Lemma dict_get_In {V : Type} (d : pydict V) (k : string) (v : V) :
  dict_get d k = Some v -> In (k, v) d.
Proof.
  induction d as [| [k0 v0] d IH]; simpl; [discriminate |].
  destruct (String.eqb_spec k k0) as [-> | Hne].
  - intros H. injection H as ->. now left.
  - intros H. right. now apply IH.
Qed.

Lemma dict_get_update_other {V : Type} (other d : pydict V) (k : string) :
  ~ In k (keys other) -> dict_get (dict_update d other) k = dict_get d k.
Proof.
  unfold dict_update. revert d.
  induction other as [| [k' v'] other IH]; intros d H; simpl in *; [reflexivity |].
  rewrite IH by tauto. apply dict_get_set_other. intros ->. tauto.
Qed.

Lemma keys_dict_update_In {V : Type} (other d : pydict V) (k : string) :
  In k (keys (dict_update d other)) <-> In k (keys d) \/ In k (keys other).
Proof.
  unfold dict_update. revert d.
  induction other as [| [k' v'] other IH]; intros d; simpl; [tauto |].
  rewrite IH, keys_dict_set, in_app_iff.
  destruct (dict_mem k' d) eqn:E; simpl.
  - apply dict_mem_In in E. intuition (subst; auto).
  - intuition.
Qed.

Lemma bind_getitem (m : M string) (s s' : registry) (c : Colormap) :
  bind m getitem s = (s', Ret c) ->
  exists name, m s = (s', Ret name) /\ dict_get s' name = Some c.
Proof.
  unfold bind, getitem. destruct (m s) as [s1 [n | e]]; [| discriminate].
  destruct (dict_get s1 n) as [c' |] eqn:E; intros H; [| discriminate].
  injection H as <- <-. eauto.
Qed.

(** The positions a matplotlib colormap is sampled at. *)
Lemma linspace_256 :
  exists positions,
    linspace 0 1 256 = Ret positions /\ length positions = 256%nat /\
    Forall2 Qeq positions (map (fun i : Z => inject_Z i / 255) (arange 256)).
Proof.
  rewrite linspace_closed_form by lia. eexists. split; [reflexivity |].
  change (256 - 1)%Z with 255%Z. split.
  - rewrite length_app, length_map. unfold arange.
    now rewrite length_map, length_seq.
  - change 256%Z with (255 + 1)%Z. rewrite arange_succ, map_app by lia.
    apply Forall2_app.
    + induction (arange 255) as [| i l IH]; simpl; constructor; [| exact IH].
      change (inject_Z 255) with 255. field.
    + constructor; [| constructor]. reflexivity.
Qed.

Section RegistryExtras.

Variable get_colormaps : pydict VispyColormap.
Variable cm : string -> option (list Q -> result array).
Variable matplotlib_colormaps : list string.
Variable bopd : pydict array.
Variable Colormap_kwargs : pydict pyobj -> result Colormap.
Variable colormap_eq : VispyColormap -> Colormap -> bool.

Local Abbreviation ensure :=
  (ensure_colormap get_colormaps cm Colormap_kwargs colormap_eq).
Local Abbreviation lookup := (vispy_or_mpl_colormap get_colormaps cm).
Local Abbreviation initial_registry :=
  (AVAILABLE_COLORMAPS get_colormaps cm matplotlib_colormaps bopd).

Ltac run_ensure :=
  unfold ensure_colormap, warn, bind, ret, raise, lift, setitem, getitem,
    get_registry, update; cbn beta iota.

(** A lookup fails on a name in neither catalog, with the [KeyError], or
    with what the attribute of that name of matplotlib's module raises
    when it is called. *)
Lemma vispy_or_mpl_colormap_raises (name : string) (e : exn) :
  lookup name = Raise e ->
  dict_get get_colormaps name = None /\
  ((cm name = None /\ e = KeyError_not_found) \/
   exists f positions,
     cm name = Some f /\ linspace 0 1 256 = Ret positions /\
     f positions = Raise e).
Proof.
  unfold vispy_or_mpl_colormap.
  destruct (dict_get get_colormaps name) as [v |]; [discriminate |].
  destruct (cm name) as [f |].
  - destruct linspace_256 as [positions [Hl _]]. rewrite Hl. cbn [rbind].
    destruct (f positions) as [colors | e'] eqn:Hf; [discriminate |].
    intros H. injection H as <-. split; [reflexivity |]. right. eauto.
  - intros H. injection H as <-. auto.
Qed.

(** The lookup of a name in the two catalogs. Vispy's catalog is asked
    first: the colormap returned carries the name and the colours of its
    entry. A name in neither catalog is the [KeyError]. Otherwise the
    attribute of that name of matplotlib's module is called on the 256
    positions [i / 255]: the colours it returns are those of the colormap
    returned, under the name, and what it raises is raised. *)
Theorem vispy_or_mpl_colormap_lookup :
  forall name : string,
    match dict_get get_colormaps name with
    | Some v =>
        exists c, lookup name = Ret c /\ Colormap.name c = name /\
                  Colormap.colors c = VispyColormap.colors_rgba v
    | None =>
        match cm name with
        | None => lookup name = Raise KeyError_not_found
        | Some f =>
            exists positions,
              length positions = 256%nat /\
              Forall2 Qeq positions
                (map (fun i : Z => inject_Z i / 255) (arange 256)) /\
              match f positions with
              | Ret colors =>
                  exists c, lookup name = Ret c /\ Colormap.name c = name /\
                            Colormap.colors c = colors
              | Raise e => lookup name = Raise e
              end
        end
    end.
Proof.
  intros name. unfold vispy_or_mpl_colormap.
  destruct (dict_get get_colormaps name) as [v |].
  - eexists. split; [reflexivity |]. split; reflexivity.
  - destruct (cm name) as [f |]; [| reflexivity].
    destruct linspace_256 as [positions [Hl [Hlen Hpos]]].
    exists positions. split; [exact Hlen |]. split; [exact Hpos |].
    rewrite Hl. cbn [rbind].
    destruct (f positions) as [colors | e]; [| reflexivity].
    eexists. split; [reflexivity |]. split; reflexivity.
Qed.

Lemma ensure_colormap_known (name : string) (s : registry) (c : Colormap) :
  dict_get s name = Some c -> ensure (PyStr name) s = (s, Ret c).
Proof.
  intros H. run_ensure. unfold dict_mem. rewrite H. cbn. now rewrite H.
Qed.

(** Whatever the argument was, the colormap a call returns is in the
    registry afterwards, and asking for it by the name it is stored under
    returns it again and leaves the registry as it is. *)
Theorem ensure_colormap_round_trip :
  forall (colormap : pyobj) (available available' : registry) (c : Colormap),
    ensure colormap available = (available', Ret c) ->
    exists name : string,
      dict_get available' name = Some c /\
      ensure (PyStr name) available' = (available', Ret c).
Proof.
  intros colormap s s' c H. unfold ensure_colormap in H.
  apply bind_getitem in H. destruct H as [name [_ Hget]].
  exists name. split; [exact Hget | now apply ensure_colormap_known].
Qed.

(** A name the registry does not know is looked up in the catalogs: the
    colormap found is registered under the name, after all the names
    already there, and returned; when the lookup fails the call raises
    its exception and the registry stays as it was. *)
Theorem ensure_colormap_new_name :
  forall (name : string) (available : registry),
    dict_get available name = None ->
    ensure (PyStr name) available
    = match lookup name with
      | Ret c => (available ++ [(name, c)], Ret c)
      | Raise e => (available, Raise e)
      end.
Proof.
  intros name s H. run_ensure. unfold dict_mem. rewrite H. cbn.
  destruct (lookup name) as [c | e]; cbn; [| reflexivity].
  rewrite dict_get_set_same. rewrite dict_set_fresh; [reflexivity |].
  now apply dict_get_None.
Qed.

(** A [Colormap] instance is registered under its own name and returned
    as it is: the entry of that name, if there was one, is replaced, the
    other entries stay, and registering it once more changes nothing. *)
Theorem ensure_colormap_instance :
  forall (c : Colormap) (available : registry),
    ensure (PyColormap c) available
    = (dict_set available (Colormap.name c) c, Ret c) /\
    (forall k, k <> Colormap.name c ->
               dict_get (dict_set available (Colormap.name c) c) k
               = dict_get available k) /\
    ensure (PyColormap c) (dict_set available (Colormap.name c) c)
    = (dict_set available (Colormap.name c) c, Ret c).
Proof.
  intros c s. split; [| split].
  - run_ensure. now rewrite dict_get_set_same.
  - intros k Hk. now apply dict_get_set_other.
  - run_ensure. now rewrite dict_set_set, dict_get_set_same.
Qed.

(** The items of a dict whose values are all colormaps are converted
    without an exception, key by key. *)
Lemma dict_items_converted (items : pydict pyobj) :
  forallb (fun i => isinstance_VispyColormap i || isinstance_Colormap i)
          (map snd items) = true ->
  exists converted : pydict Colormap,
    rmap (fun '(key, cmap) =>
            if isinstance_VispyColormap cmap then
              rbind (convert_vispy_colormap cmap (Some key))
                    (fun c => Ret (key, c))
            else
              match cmap with
              | PyColormap c => Ret (key, set_name c key)
              | _ => Raise TypeError_dict
              end) items = Ret converted /\
    Forall2 (fun kv kc =>
               fst kc = fst kv /\
               match snd kv with
               | PyColormap c0 => Colormap.colors (snd kc) = Colormap.colors c0
               | PyVispy v =>
                   convert_vispy_colormap (PyVispy v) (Some (fst kv)) = Ret (snd kc)
               | _ => False
               end) items converted.
Proof.
  induction items as [| [key cmap] items IH]; intros H.
  - exists []. split; [reflexivity | constructor].
  - cbn [map snd forallb] in H. apply andb_true_iff in H. destruct H as [Hc H].
    destruct (IH H) as [converted [E HF]]. cbn [rmap]. rewrite E.
    destruct cmap as [n | c | v | i | i | a | t]; try discriminate Hc; cbn.
    + eexists. split; [reflexivity |]. constructor; [| exact HF].
      split; reflexivity.
    + eexists. split; [reflexivity |]. constructor; [| exact HF].
      split; reflexivity.
Qed.

Lemma colors_key_is_colormap (items : pydict pyobj) :
  forallb (fun i => isinstance_VispyColormap i || isinstance_Colormap i)
          (map snd items) = true ->
  match dict_get items "colors" with
  | Some v => negb (isinstance_VispyColormap v || isinstance_Colormap v)
  | None => false
  end = false.
Proof.
  intros H. destruct (dict_get items "colors") as [v |] eqn:E; [| reflexivity].
  apply dict_get_In in E. rewrite forallb_forall in H.
  rewrite (H v); [reflexivity |]. apply in_map_iff. exists ("colors"%string, v). auto.
Qed.

(** A dict that maps names to colormaps registers every one of them
    under its key and returns the entry of the first key, which has the
    colours of the first value. *)
Theorem ensure_colormap_dict_registers :
  forall (items : pydict pyobj) (available : registry),
    items <> [] -> NoDup (keys items) ->
    forallb (fun i => isinstance_VispyColormap i || isinstance_Colormap i)
            (map snd items) = true ->
    exists (c : Colormap) (available' : registry),
      ensure (PyDict items) available = (available', Ret c) /\
      (forall k, In k (keys items) -> dict_mem k available' = true) /\
      match items with
      | (k0, v0) :: _ =>
          dict_get available' k0 = Some c /\
          match v0 with
          | PyColormap c0 => Colormap.colors c = Colormap.colors c0
          | PyVispy v => Colormap.colors c = VispyColormap.colors_rgba v
          | _ => False
          end
      | [] => False
      end.
Proof.
  intros items s Hne Hnd Hall.
  destruct (dict_items_converted items Hall) as [converted [E HF]].
  assert (Hkeys : keys converted = keys items).
  { clear -HF. induction HF as [| kv kc items converted [Hk _] HF IH];
      [reflexivity |]. unfold keys in *. simpl. now rewrite Hk, IH. }
  destruct items as [| [k0 v0] items]; [congruence |].
  inversion HF as [| ? [k0' c0] ? rest [Hk0 Hv0] HF']; subst.
  cbn [fst snd] in Hk0, Hv0. subst k0'.
  assert (Hget : dict_get (dict_update s ((k0, c0) :: rest)) k0 = Some c0).
  { unfold dict_update. cbn [fold_left fst snd].
    change (fold_left _ rest ?d) with (dict_update d rest).
    rewrite dict_get_update_other; [apply dict_get_set_same |].
    unfold keys in Hkeys. cbn [map fst] in Hkeys. injection Hkeys as Hkeys.
    unfold keys. rewrite Hkeys. inversion Hnd; assumption. }
  exists c0, (dict_update s ((k0, c0) :: rest)). split; [| split].
  - run_ensure. rewrite (colors_key_is_colormap _ Hall), Hall. cbn [negb].
    rewrite E. destruct rest as [| kv rest']; cbn beta iota; now rewrite Hget.
  - intros k Hk. apply dict_mem_update_r. now rewrite Hkeys.
  - split; [exact Hget |].
    destruct v0 as [n | c | v | i | i | a | t]; try contradiction.
    + exact Hv0.
    + cbn in Hv0. injection Hv0 as <-. reflexivity.
Qed.

(** The exceptions of [ensure_colormap], by the kind of argument: a name
    fails only when the registry and vispy's catalog do not know it, with
    the [KeyError] of a name that matplotlib's module does not have
    either, or with what the attribute of that name raises when it is
    called; a [Colormap] or vispy instance never fails; a
    tuple fails only with the [TypeError] of a tuple that is not a name
    and a colormap; a dict fails with the [ValueError] of the empty dict,
    with the [TypeError] of a value that is no colormap, or with what the
    [Colormap] constructor raises; anything else is the [TypeError] of an
    invalid type. The lookup that ends the call never fails. *)
Theorem ensure_colormap_errors :
  forall (colormap : pyobj) (available available' : registry) (e : exn),
    ensure colormap available = (available', Raise e) ->
    match colormap with
    | PyStr name =>
        dict_get available name = None /\
        dict_get get_colormaps name = None /\
        ((cm name = None /\ e = KeyError_not_found) \/
         exists f positions,
           cm name = Some f /\ linspace 0 1 256 = Ret positions /\
           f positions = Raise e)
    | PyColormap _ | PyVispy _ => False
    | PyTuple items =>
        e = TypeError_tuple /\
        (forall name v, items <> [PyStr name; PyVispy v]) /\
        (forall name c, items <> [PyStr name; PyColormap c])
    | PyDict items =>
        (e = ValueError_empty_dict /\ items = []) \/
        (e = TypeError_dict /\
         forallb (fun i => isinstance_VispyColormap i || isinstance_Colormap i)
                 (map snd items) = false) \/
        (Colormap_kwargs items = Raise e /\ dict_mem "colors" items = true)
    | PyArray _ | PyOther _ => e = TypeError_invalid_type
    end.
Proof.
  intros colormap s s' e H.
  destruct colormap as [name | c | v | items | items | a | t].
  - revert H. run_ensure. unfold dict_mem.
    destruct (dict_get s name) as [c |] eqn:Hs; cbn.
    + rewrite Hs. discriminate.
    + destruct (lookup name) as [c | e'] eqn:Hl; cbn.
      * rewrite dict_get_set_same. discriminate.
      * intros H. injection H as _ <-.
        apply vispy_or_mpl_colormap_raises in Hl. tauto.
  - revert H. run_ensure. rewrite dict_get_set_same. discriminate.
  - revert H. run_ensure. cbn. rewrite dict_get_set_same. discriminate.
  - revert H. run_ensure.
    destruct items as [| [n | c | v | i | i | a | t] [| [n' | c' | v' | i' | i' | a' | t'] [| z l]]];
      cbn; try rewrite dict_get_set_same; try discriminate;
      intros H; injection H as _ <-; (split; [reflexivity | split; intros; discriminate]).
  - revert H. run_ensure. unfold dict_mem.
    destruct (dict_get items "colors") as [v |] eqn:Hcol.
    + destruct (negb (isinstance_VispyColormap v || isinstance_Colormap v)) eqn:Hv.
      * destruct (Colormap_kwargs items) as [cmap | e'] eqn:Hk; cbn.
        -- rewrite dict_get_set_same. discriminate.
        -- intros H. injection H as _ <-. right. right. auto.
      * destruct (forallb _ (map snd items)) eqn:Hall; cbn [negb].
        -- destruct (dict_items_converted items Hall) as [converted [E HF]].
           rewrite E.
           destruct converted as [| [k0 c0] [| kv rest]]; cbn beta iota.
           ++ inversion HF; subst. discriminate Hcol.
           ++ unfold dict_update. cbn [fold_left fst snd].
              rewrite dict_get_set_same. discriminate.
           ++ pose proof (dict_mem_update_r ((k0, c0) :: kv :: rest) s k0
                            (or_introl eq_refl)) as Hm.
              unfold dict_mem in Hm.
              destruct (dict_get (dict_update s ((k0, c0) :: kv :: rest)) k0);
                [discriminate | discriminate Hm].
        -- intros H. injection H as _ <-. right. left. auto.
    + destruct (forallb _ (map snd items)) eqn:Hall; cbn [negb].
      * destruct (dict_items_converted items Hall) as [converted [E HF]].
        rewrite E.
        destruct converted as [| [k0 c0] [| kv rest]]; cbn beta iota.
        -- inversion HF; subst. intros H. injection H as _ <-. left. auto.
        -- unfold dict_update. cbn [fold_left fst snd].
              rewrite dict_get_set_same. discriminate.
        -- pose proof (dict_mem_update_r ((k0, c0) :: kv :: rest) s k0
                         (or_introl eq_refl)) as Hm.
           unfold dict_mem in Hm.
           destruct (dict_get (dict_update s ((k0, c0) :: kv :: rest)) k0);
             [discriminate | discriminate Hm].
      * intros H. injection H as _ <-. right. left. auto.
  - revert H. run_ensure. intros H. now injection H as _ <-.
  - revert H. run_ensure. intros H. now injection H as _ <-.
Qed.

Lemma rmap_raises {A B : Type} (f : A -> result B) (l : list A) (e : exn) :
  rmap f l = Raise e -> exists a, In a l /\ f a = Raise e.
Proof.
  induction l as [| a l IH]; simpl; [discriminate |].
  destruct (f a) as [b | e'] eqn:E; simpl.
  - destruct (rmap f l) as [bs | e'']; simpl; [discriminate |].
    intros H. injection H as <-. destruct IH as [a' [Hin Ha']]; eauto.
  - intros H. injection H as <-. eauto.
Qed.

(** The registry the module starts with: when the lookup of a name of
    the matplotlib list fails, on a name in neither catalog or in the
    call of the attribute of matplotlib's module, building it fails with
    that exception; otherwise its names are the names of the matplotlib
    list, the six primary colours and the names of the bop table, each
    once. *)
Theorem available_colormaps_names :
  match initial_registry with
  | Ret reg =>
      NoDup (keys reg) /\
      forall k, In k (keys reg)
                <-> In k matplotlib_colormaps \/ In k primary_color_names
                    \/ In k (keys bopd)
  | Raise e =>
      exists k, In k matplotlib_colormaps /\
                dict_get get_colormaps k = None /\
                ((cm k = None /\ e = KeyError_not_found) \/
                 exists f positions,
                   cm k = Some f /\ linspace 0 1 256 = Ret positions /\
                   f positions = Raise e)
  end.
Proof.
  unfold AVAILABLE_COLORMAPS, ALL_COLORMAPS, rbind.
  destruct (rmap _ matplotlib_colormaps) as [items | e] eqn:E.
  - cbv beta iota.
    set (all := dict_update (dict_update (dict_of_items items) SIMPLE_COLORMAPS)
                  (BOP_COLORMAPS bopd)).
    assert (Hall : NoDup (keys all)).
    { unfold all. do 2 apply NoDup_keys_dict_update. apply NoDup_keys_dict_update.
      constructor. }
    destruct (sorted_items_spec all Hall) as [_ Hn].
    assert (Hreg : dict_of_items (sorted_items all) = sorted_items all).
    { unfold dict_of_items. now rewrite dict_update_fresh. }
    rewrite Hreg. split; [exact Hn |].
    intros k. rewrite sorted_items_In. unfold all, BOP_COLORMAPS, dict_of_items.
    rewrite !keys_dict_update_In.
    assert (Hitems : keys items = matplotlib_colormaps).
    { apply rmap_Forall2 in E. clear -E.
      induction E as [| k [k' c] l items Hk E IH]; [reflexivity |].
      unfold keys in *. simpl. rewrite IH. f_equal.
      destruct (vispy_or_mpl_colormap get_colormaps cm k); simpl in Hk;
        [now injection Hk | discriminate]. }
    assert (Hsimple : keys SIMPLE_COLORMAPS = primary_color_names) by reflexivity.
    assert (Hbop : keys (map (fun '(k, v) => (k, Colormap_init v (Some k) None None)) bopd)
                   = keys bopd).
    { clear. unfold keys. induction bopd as [| [k v] b IH]; simpl; [reflexivity |].
      now rewrite IH. }
    rewrite Hitems, Hsimple, Hbop. simpl. tauto.
  - cbv beta iota. apply rmap_raises in E. destruct E as [k [Hin Hk]].
    destruct (lookup k) as [c | e'] eqn:Hl; simpl in Hk; [discriminate |].
    injection Hk as <-. apply vispy_or_mpl_colormap_raises in Hl.
    destruct Hl as [Hv Hm]. eauto.
Qed.

End RegistryExtras.

(** ** Concrete runs of the further properties *)

Lemma label_colormap_no_colors_witness :
  label_colormap sample_lab2rgb sample_luv2rgb 3 0 (SeedFloat 0.5)
  = Some (Raise ValueError_linspace).
Proof.
  apply (label_colormap_no_colors sample_lab2rgb sample_luv2rgb 3 0 (SeedFloat 0.5)).
  lia.
Defined.

Lemma label_colormap_colors_witness :
  exists cmap : Colormap,
    label_colormap sample_lab2rgb sample_luv2rgb 1 5 (SeedFloat 0.5)
    = Some (Ret cmap) /\
    exists rgb : array,
      _color_random sample_lab2rgb sample_luv2rgb 1 5 "lab" 0.0 (SeedFloat 0.5)
      = Some (Ret rgb) /\
      Colormap.colors cmap = [0; 0; 0; 0] :: map (fun r => r ++ [1]) (tl rgb) /\
      Forall (fun r : row =>
                exists x y z, r = [x; y; z; 1] /\
                              0 <= x <= 1 /\ 0 <= y <= 1 /\ 0 <= z <= 1)
             (tl (Colormap.colors cmap)).
Proof.
  eexists. split.
  - vm_compute. reflexivity.
  - apply (label_colormap_colors sample_lab2rgb sample_luv2rgb 1 5 (SeedFloat 0.5)).
    + lia.
    + reflexivity.
    + vm_compute. reflexivity.
Defined.

Lemma label_colormap_controls_witness :
  exists cmap : Colormap,
    label_colormap sample_lab2rgb sample_luv2rgb 1 5 (SeedFloat 0.5)
    = Some (Ret cmap) /\
    exists mid : list Q,
      Colormap.controls cmap = 0 :: mid ++ [1.0] /\
      length mid = Z.to_nat (5 - 1) /\
      (exists first rest, mid = first :: rest /\ first == 0.00001) /\
      ((3 <= 5)%Z ->
       Forall2 Qeq mid
         (map (fun i : Z => 0.00001 + inject_Z i * (0.99998 / inject_Z (5 - 2)))
              (arange (5 - 1))) /\
       last mid 0 = 1 - 0.00001).
Proof.
  eexists. split.
  - vm_compute. reflexivity.
  - apply (label_colormap_controls sample_lab2rgb sample_luv2rgb 1 5 (SeedFloat 0.5)).
    + lia.
    + vm_compute. reflexivity.
Defined.

Lemma ensure_colormap_round_trip_witness :
  exists (available' : registry) (c : Colormap) (name : string),
    sample_ensure (PyVispy sample_vispy) sample_registry = (available', Ret c) /\
    dict_get available' name = Some c /\
    sample_ensure (PyStr name) available' = (available', Ret c).
Proof.
  eexists. eexists.
  match goal with
  | |- exists name, ?run = ?r /\ _ => assert (H : run = r) by (vm_compute; reflexivity)
  end.
  destruct (ensure_colormap_round_trip sample_get_colormaps sample_cm
              sample_Colormap_kwargs structural_eq (PyVispy sample_vispy)
              sample_registry _ _ H) as [name [Hget Hens]].
  exists name. split; [exact H |]. split; [exact Hget | exact Hens].
Defined.

Lemma ensure_colormap_new_name_witness :
  sample_ensure (PyStr "grays") []
  = match vispy_or_mpl_colormap sample_get_colormaps sample_cm "grays" with
    | Ret c => ([] ++ [("grays"%string, c)], Ret c)
    | Raise e => ([], Raise e)
    end.
Proof.
  apply (ensure_colormap_new_name sample_get_colormaps sample_cm
           sample_Colormap_kwargs structural_eq "grays" []).
  reflexivity.
Defined.

Lemma ensure_colormap_dict_registers_witness :
  exists (c : Colormap) (available' : registry),
    sample_ensure (PyDict sample_dict) sample_registry = (available', Ret c) /\
    (forall k, In k (keys sample_dict) -> dict_mem k available' = true) /\
    dict_get available' "stripes" = Some c /\
    Colormap.colors c = VispyColormap.colors_rgba sample_vispy.
Proof.
  apply (ensure_colormap_dict_registers sample_get_colormaps sample_cm
           sample_Colormap_kwargs structural_eq sample_dict sample_registry).
  - discriminate.
  - unfold keys. simpl. constructor.
    + intros [H | []]. discriminate H.
    + constructor; [intros [] | constructor].
  - reflexivity.
Defined.

Lemma ensure_colormap_errors_witness :
  dict_get sample_registry "nonexistent_name_xyz" = None /\
  dict_get sample_get_colormaps "nonexistent_name_xyz" = None /\
  ((sample_cm "nonexistent_name_xyz" = None /\
    KeyError_not_found = KeyError_not_found) \/
   exists f positions,
     sample_cm "nonexistent_name_xyz" = Some f /\
     linspace 0 1 256 = Ret positions /\
     f positions = Raise KeyError_not_found).
Proof.
  apply (ensure_colormap_errors sample_get_colormaps sample_cm
           sample_Colormap_kwargs structural_eq
           (PyStr "nonexistent_name_xyz") sample_registry sample_registry
           KeyError_not_found).
  vm_compute. reflexivity.
Defined.

(** A name that matplotlib's module has, but not as a colormap: the call
    of the attribute raises, and so does [ensure_colormap]. *)
Example ensure_colormap_not_callable :
  sample_ensure (PyStr "__doc__") sample_registry
  = (sample_registry, Raise TypeError_not_callable).
Proof. vm_compute. reflexivity. Qed.
